(** * Crossing verifier for axis-aligned wires (ps3_circuit2.py)

    A shallow embedding of the circuit verification library: wires, the
    key-wire pairs ordered by (key, wire_id), the hand-written binary search
    tree, the array-backed range index, and the sweep-line CrossVerifier.

    Modelling conventions.
    - Coordinates are only ever compared, never computed with; they are
      modelled as integers [Z].  Object ids and keys are [Z] as well.
    - Python objects mutated in place become explicit state: a method is a
      function [S -> result A * S] (the monad [M] below), so that the state
      left behind by a raised exception is visible.
    - Output written with [print] is not part of the model, and neither is
      the interpreter's recursion limit.  What is modelled of a [print] is
      the evaluation of its arguments, since that evaluation can raise. *)

From Stdlib Require Import ZArith String List Bool Lia.
From Stdlib Require Import Sorting.Sorted Sorting.Permutation.
Import ListNotations.
Local Open Scope Z_scope.

Set Implicit Arguments.

(* ================================================================== *)
(** ** Exceptions and stateful methods *)

Inductive exn : Type :=
| ValueError      (* raised explicitly by Wire.__init__, add_wire, min([]) *)
| AttributeError  (* attribute access on None *)
| RuntimeError.   (* a bare [raise] with no active exception
                     (a TypeError under Python 2) *)

Inductive result (A : Type) : Type :=
| Ok (a : A)
| Raise (e : exn).

Arguments Ok {A} a.
Arguments Raise {A} e.

Definition M (S A : Type) : Type := S -> result A * S.

Definition ret {S A} (a : A) : M S A := fun s => (Ok a, s).

Definition raise {S A} (e : exn) : M S A := fun s => (Raise e, s).

Definition bind {S A B} (c : M S A) (k : A -> M S B) : M S B :=
  fun s => match c s with
           | (Ok a, s') => k a s'
           | (Raise e, s') => (Raise e, s')
           end.

Notation "x <- c ;; k" := (bind c (fun x => k))
  (at level 61, c at next level, right associativity).
Notation "c ;;; k" := (bind c (fun _ => k))
  (at level 61, right associativity).

Definition get {S} : M S S := fun s => (Ok s, s).

(** [for x in xs: body x] *)
Fixpoint for_each {S A} (xs : list A) (body : A -> M S unit) : M S unit :=
  match xs with
  | [] => ret tt
  | x :: xs' => body x ;;; for_each xs' body
  end.

(* ================================================================== *)
(** ** Wire *)

Record Wire : Type := mkWire {
  name : string;
  x1 : Z; y1 : Z;
  x2 : Z; y2 : Z;
  object_id : Z
}.

Definition is_horizontal (self : Wire) : bool := y1 self =? y2 self.

Definition is_vertical (self : Wire) : bool := x1 self =? x2 self.

Definition intersects (self other_wire : Wire) : bool :=
  if Bool.eqb (is_horizontal self) (is_horizontal other_wire) then false
  else
    let h := if is_horizontal self then self else other_wire in
    let v := if is_horizontal self then other_wire else self in
    (y1 v <=? y1 h) && (y1 h <=? y2 v) && (x1 h <=? x1 v) && (x1 v <=? x2 h).

(** [Wire.next_object_id]: the state is the class attribute [Wire._next_id]. *)
Definition next_object_id : M Z Z := fun next => (Ok next, next + 1).

(** [Wire.__init__].  The id is drawn before the orientation check, so a
    rejected wire still consumes an id. *)
Definition Wire_init (nm : string) (ax ay bx by_ : Z) : M Z Wire :=
  let nx1 := if ax >? bx then bx else ax in
  let nx2 := if ax >? bx then ax else bx in
  let ny1 := if ay >? by_ then by_ else ay in
  let ny2 := if ay >? by_ then ay else by_ in
  id <- next_object_id ;;
  let self := mkWire nm nx1 ny1 nx2 ny2 id in
  if negb (is_horizontal self || is_vertical self)
  then raise ValueError
  else ret self.

(* ================================================================== *)
(** ** WireLayer

    [self.wires] is a dict from names to wires; it is kept as an association
    list in insertion order, which is the order [values()] yields. *)

Definition WireLayer : Type := list (string * Wire).

Definition layer_values (layer : WireLayer) : list Wire := map snd layer.

Definition name_in (nm : string) (layer : WireLayer) : bool :=
  existsb (fun p => String.eqb (fst p) nm) layer.

(** [WireLayer.add_wire]; the threaded state is [Wire._next_id], the
    updated layer is returned. *)
Definition add_wire (layer : WireLayer) (nm : string) (ax ay bx by_ : Z)
  : M Z WireLayer :=
  if name_in nm layer then raise ValueError
  else w <- Wire_init nm ax ay bx by_ ;; ret (layer ++ [(nm, w)]).

(** The loop of [WireLayer.from_file] over the wire records of the input,
    already parsed: name and the two endpoints. *)
Definition wire_record : Type := (string * (Z * Z) * (Z * Z))%type.

Fixpoint add_wires (layer : WireLayer) (records : list wire_record)
  : M Z WireLayer :=
  match records with
  | [] => ret layer
  | (nm, (ax, ay), (bx, by_)) :: rest =>
      layer' <- add_wire layer nm ax ay bx by_ ;;
      add_wires layer' rest
  end.

(* ================================================================== *)
(** ** KeyWirePair and its comparisons *)

Record KWP : Type := mkKWP {
  key : Z;
  wire : option Wire;
  wire_id : Z
}.

(** [KeyWirePair(key, wire)] takes a wire, never [None]; the two
    subclasses used as query bounds carry no wire. *)
Definition KeyWirePair (k : Z) (w : Wire) : KWP := mkKWP k (Some w) (object_id w).
Definition KeyWirePairL (k : Z) : KWP := mkKWP k None (-1000000000).
Definition KeyWirePairH (k : Z) : KWP := mkKWP k None 1000000000.

Definition kwp_lt (self other : KWP) : bool :=
  (key self <? key other)
  || ((key self =? key other) && (wire_id self <? wire_id other)).

Definition kwp_le (self other : KWP) : bool :=
  (key self <? key other)
  || ((key self =? key other) && (wire_id self <=? wire_id other)).

Definition kwp_gt (self other : KWP) : bool :=
  (key self >? key other)
  || ((key self =? key other) && (wire_id self >? wire_id other)).

Definition kwp_ge (self other : KWP) : bool :=
  (key self >? key other)
  || ((key self =? key other) && (wire_id self >=? wire_id other)).

Definition kwp_eq (self other : KWP) : bool :=
  (key self =? key other) && (wire_id self =? wire_id other).

Definition kwp_ne (self other : KWP) : bool :=
  negb (key self =? key other) || negb (wire_id self =? wire_id other).

(* ================================================================== *)
(** ** The binary search tree (BST_Node_KWP, BSTree)

    A child slot or the root slot holds either [None] or a node; [bst] is
    such a slot.  Nodes are never shared between two slots as long as the
    ordering invariant [bst_ok] below holds, so the heap of nodes is
    represented by the tree itself and an in-place update of a node by the
    rebuilding of the path that leads to it. *)

Inductive bst : Type :=
| NoNode
| BST_Node (leftChild : bst) (kwp_key : KWP) (rightChild : bst).

(** [BST_Node_KWP.insert], together with the three places that fill an
    empty slot (the root in [BSTree.insert], [leftChild], [rightChild]).
    Returns the boolean of the method and the updated slot.  The unused
    [new_data = kwp.wire.y1] of line 155 is left out: the keys inserted are
    [KeyWirePair]s, which carry a wire. *)
Fixpoint BST_insert (self : bst) (kwp : KWP) : bool * bst :=
  match self with
  | NoNode => (true, BST_Node NoNode kwp NoNode)
  | BST_Node l k r =>
      if kwp_eq k kwp then (false, self)
      else if kwp_gt k kwp then
        let (b, l') := BST_insert l kwp in (b, BST_Node l' k r)
      else
        let (b, r') := BST_insert r kwp in (b, BST_Node l k r')
  end.

Definition BSTree_insert (kwp : KWP) : M bst bool :=
  fun root => let (b, root') := BST_insert root kwp in (Ok b, root').

(** [BST_Node_KWP.bst_search]; falling off the tree returns [None]. *)
Fixpoint bst_search (self : bst) (kwp : KWP) : option KWP :=
  match self with
  | NoNode => None
  | BST_Node l k r =>
      if kwp_eq k kwp then Some k
      else if kwp_gt k kwp then bst_search l kwp
      else bst_search r kwp
  end.

(** [BST_Node_KWP.node_list]: the in-order list of keys. *)
Fixpoint node_list (self : bst) : list KWP :=
  match self with
  | NoNode => []
  | BST_Node l k r => node_list l ++ k :: node_list r
  end.

Definition inorder_list (root : bst) : list KWP := node_list root.

(** *** BSTree.remove *)

(** The search loop of [remove] (lines 239-244): the key of the node the
    loop stops at, [None] when it runs off the tree. *)
Fixpoint remove_locate (node : bst) (kwp : KWP) : option KWP :=
  match node with
  | NoNode => None
  | BST_Node l k r =>
      if kwp_ne k kwp then
        if kwp_lt kwp k then remove_locate l kwp else remove_locate r kwp
      else Some k
  end.

(** Lines 293-295: the key of [delNode], the lowest left descendant.
    [lowest_left_key k l] is the key reached from a node with key [k] and
    left child [l]. *)
Fixpoint lowest_left_key (k : KWP) (l : bst) : KWP :=
  match l with
  | NoNode => k
  | BST_Node ll lk _ => lowest_left_key lk ll
  end.

(** Lines 300-312, the unlinking of [delNode] (key [dk], right child [dr],
    no left child) from [delNodeParent], whose fields are [pl], [pk], [pr]
    at that time.  Which link of the parent is overwritten is decided by
    comparing keys, not by where [delNode] hangs.  The branch taken when
    [pk < dk] would make [dr] reachable twice; [bst_ok] excludes it. *)
Definition unlink_delNode (pl : bst) (pk : KWP) (pr : bst)
                          (dk : KWP) (dr : bst) : bst :=
  match dr with
  | BST_Node _ _ _ =>
      if kwp_gt pk dk then BST_Node dr pk pr
      else if kwp_lt pk dk then BST_Node pl pk dr
      else BST_Node pl pk pr
  | NoNode =>
      if kwp_lt dk pk then BST_Node NoNode pk pr
      else BST_Node pl pk NoNode
  end.

(** [delNodeParent] lies strictly below [node]: descend along left children
    of [p] and unlink the lowest one. *)
Fixpoint unlink_lowest_left (p : bst) : bst :=
  match p with
  | NoNode => NoNode
  | BST_Node pl pk pr =>
      match pl with
      | NoNode => p
      | BST_Node NoNode dk dr => unlink_delNode pl pk pr dk dr
      | BST_Node (BST_Node _ _ _) _ _ => BST_Node (unlink_lowest_left pl) pk pr
      end
  end.

(** Cases 2-5 for the node found, with children [l] and [r]: what its slot
    holds afterwards.  In case 5 the node's key has already been
    overwritten with [delNode]'s when the parent's key is compared, which
    matters when [delNodeParent] is the node itself. *)
Definition remove_found (l : bst) (r : bst) : bst :=
  match l, r with
  | NoNode, NoNode => NoNode
  | BST_Node _ _ _, NoNode => l
  | NoNode, BST_Node _ _ _ => r
  | BST_Node _ _ _, BST_Node rl rk rr =>
      match rl with
      | NoNode => unlink_delNode l rk r rk rr
      | BST_Node _ _ _ =>
          BST_Node l (lowest_left_key rk rl) (unlink_lowest_left r)
      end
  end.

(** The tree after the removal.  The parent's link to overwrite is chosen
    by [kwp < parent.kwp_key], the test the search loop descended by, so
    it is the link that was followed. *)
Fixpoint remove_from (node : bst) (kwp : KWP) : option bst :=
  match node with
  | NoNode => None
  | BST_Node l k r =>
      if kwp_ne k kwp then
        if kwp_lt kwp k
        then option_map (fun l' => BST_Node l' k r) (remove_from l kwp)
        else option_map (fun r' => BST_Node l k r') (remove_from r kwp)
      else Some (remove_found l r)
  end.

(** [BSTree.remove].  Line 249 evaluates [node.kwp_key] before case 1 tests
    [node is None]. *)
Definition BSTree_remove (kwp : KWP) : M bst bool :=
  fun root =>
    match remove_locate root kwp with
    | None => (Raise AttributeError, root)
    | Some nk =>
        if kwp_ne nk kwp then (Ok false, root)
        else match remove_from root kwp with
             | Some root' => (Ok true, root')
             | None => (Raise AttributeError, root)   (* as [remove_locate] *)
             end
    end.

(** [BSTree.findKey]: [self.root.bst_search(kwp)]. *)
Definition BSTree_findKey (kwp : KWP) : M bst (option KWP) :=
  fun root =>
    match root with
    | NoNode => (Raise AttributeError, root)
    | BST_Node _ _ _ => (Ok (bst_search root kwp), root)
    end.

(* ================================================================== *)
(** ** RangeIndex *)

Record RangeIndex : Type := mkRangeIndex {
  data : list KWP;
  bst_data : bst
}.

Definition RangeIndex_init : RangeIndex := mkRangeIndex [] NoNode.

(** Runs a method of [self.bst_data] inside a method of the index. *)
Definition on_bst {A} (c : M bst A) : M RangeIndex A :=
  fun self =>
    let (r, t) := c (bst_data self) in
    (r, mkRangeIndex (data self) t).

(** [RangeIndex.add].  The argument is a key-wire pair, never [None]; the
    boolean of [BSTree.insert] is dropped. *)
Definition RangeIndex_add (k : KWP) : M RangeIndex unit :=
  (fun self => (Ok tt, mkRangeIndex (data self ++ [k]) (bst_data self))) ;;;
  on_bst (BSTree_insert k) ;;;
  ret tt.

(** [RangeIndex.remove]: only the tree is asked to remove the key. *)
Definition RangeIndex_remove (k : KWP) : M RangeIndex unit :=
  on_bst (BSTree_remove k) ;;; ret tt.

(** [first_key <= key <= last_key] *)
Definition in_range (first_key last_key k : KWP) : bool :=
  kwp_le first_key k && kwp_le k last_key.

(** [RangeIndex.list]: a comprehension over [self.data]. *)
Definition RangeIndex_list (self : RangeIndex) (first_key last_key : KWP)
  : list KWP :=
  filter (in_range first_key last_key) (data self).

(** [RangeIndex.count]: a counting loop over [self.data]. *)
Definition RangeIndex_count (self : RangeIndex) (first_key last_key : KWP)
  : nat :=
  fold_left
    (fun result k =>
       if in_range first_key last_key k then (result + 1)%nat else result)
    (data self) 0%nat.

(* ================================================================== *)
(** ** ResultSet *)

Record ResultSet : Type := mkResultSet {
  crossings : list (list string)
}.

(** [sorted([a, b])] for two names. *)
Definition sorted_names (a b : string) : list string :=
  if String.ltb b a then [b; a] else [a; b].

Definition add_crossing (rs : ResultSet) (wire1 wire2 : Wire) : ResultSet :=
  mkResultSet (crossings rs ++ [sorted_names (name wire1) (name wire2)]).

(* ================================================================== *)
(** ** CrossVerifier *)

(** The event type is the string ['add'], ['delete'] or ['query']. *)
Inductive event_type : Type := add | delete | query.

(** An event is the list [[x, rank, object_id, type, wire]]. *)
Record Event : Type := mkEvent {
  ev_x : Z;
  ev_rank : Z;
  ev_id : Z;
  ev_type : event_type;
  ev_wire : Wire
}.

Definition add_event (w : Wire) : Event := mkEvent (x1 w) 0 (object_id w) add w.
Definition delete_event (w : Wire) : Event := mkEvent (x2 w) 2 (object_id w) delete w.
Definition query_event (w : Wire) : Event := mkEvent (x1 w) 1 (object_id w) query w.

(** The body of the loop of [_events_from_layer] for one wire. *)
Definition wire_events (w : Wire) : list Event :=
  if is_horizontal w then [add_event w; delete_event w] else [query_event w].

(** [_events_from_layer]: [min] of the empty list raises; [left_edge] has
    no other effect. *)
Definition events_from_layer (layer : WireLayer) : result (list Event) :=
  match layer_values layer with
  | [] => Raise ValueError
  | ws => Ok (flat_map wire_events ws)
  end.

(** Events are compared as lists, lexicographically.  Two events of one
    layer that agree on x, rank and object id are the same event, so the
    comparison never gets to the type and the wire. *)
Definition event_lt (a b : Event) : bool :=
  (ev_x a <? ev_x b)
  || ((ev_x a =? ev_x b)
      && ((ev_rank a <? ev_rank b)
          || ((ev_rank a =? ev_rank b) && (ev_id a <? ev_id b)))).

(** [list.sort] is a stable sort; so is this insertion sort. *)
Fixpoint insert_event (e : Event) (l : list Event) : list Event :=
  match l with
  | [] => [e]
  | h :: t => if event_lt h e then h :: insert_event e t else e :: l
  end.

Definition sort_events (l : list Event) : list Event :=
  fold_right insert_event [] l.

Record CrossVerifier : Type := mkCrossVerifier {
  events : list Event;
  index : RangeIndex;
  result_set : ResultSet;
  performed : bool
}.

(** [CrossVerifier.__init__] *)
Definition CrossVerifier_init (layer : WireLayer) : result CrossVerifier :=
  match events_from_layer layer with
  | Raise e => Raise e
  | Ok evs => Ok (mkCrossVerifier (sort_events evs) RangeIndex_init
                                  (mkResultSet []) false)
  end.

(** Runs a method of [self.index] inside a method of the verifier. *)
Definition on_index {A} (c : M RangeIndex A) : M CrossVerifier A :=
  fun self =>
    let (r, i) := c (index self) in
    (r, mkCrossVerifier (events self) i (result_set self) (performed self)).

Definition record_crossing (wire1 wire2 : Wire) : M CrossVerifier unit :=
  fun self =>
    (Ok tt, mkCrossVerifier (events self) (index self)
                            (add_crossing (result_set self) wire1 wire2)
                            (performed self)).

Definition set_performed : M CrossVerifier unit :=
  fun self =>
    (Ok tt, mkCrossVerifier (events self) (index self) (result_set self) true).

(** The inner loop of the query branch (lines 573-575).  A key without a
    wire would make [intersects] fail on [None]. *)
Fixpoint collect_cross_wires {S} (w : Wire) (kwps : list KWP)
                             (cross_wires : list Wire) : M S (list Wire) :=
  match kwps with
  | [] => ret cross_wires
  | kwp :: rest =>
      match wire kwp with
      | None => raise AttributeError
      | Some h =>
          collect_cross_wires w rest
            (if intersects w h then cross_wires ++ [h] else cross_wires)
      end
  end.

(** One iteration of the loop of [_compute_crossings].  [result] is the
    running count of the counting mode; in the listing mode the result is
    [self.result_set] itself. *)
Definition process_event (count_only : bool) (event : Event) (result : nat)
  : M CrossVerifier nat :=
  let w := ev_wire event in
  match ev_type event with
  | add =>
      on_index (RangeIndex_add (KeyWirePair (y1 w) w)) ;;; ret result
  | delete =>
      on_index (RangeIndex_remove (KeyWirePair (y1 w) w)) ;;; ret result
  | query =>
      self <- get ;;
      cross_wires <-
        collect_cross_wires w
          (RangeIndex_list (index self)
                           (KeyWirePairL (y1 w)) (KeyWirePairH (y2 w))) [] ;;
      if count_only then ret (result + length cross_wires)%nat
      else for_each cross_wires (fun cross_wire => record_crossing w cross_wire)
           ;;; ret result
  end.

Fixpoint sweep (count_only : bool) (evs : list Event) (result : nat)
  : M CrossVerifier nat :=
  match evs with
  | [] => ret result
  | event :: evs' =>
      r <- process_event count_only event result ;;
      sweep count_only evs' r
  end.

(** What [_compute_crossings] returns: an int or the result set. *)
Inductive py_result : Type :=
| PyInt (n : nat)
| PyResultSet (rs : ResultSet).

Definition compute_crossings (count_only : bool) : M CrossVerifier py_result :=
  self <- get ;;
  n <- sweep count_only (events self) 0%nat ;;
  if count_only then ret (PyInt n)
  else self' <- get ;; ret (PyResultSet (result_set self')).

(** [count_crossings] and [wire_crossings]: a bare [raise] when the
    verifier has been used. *)
Definition count_crossings : M CrossVerifier py_result :=
  self <- get ;;
  if performed self then raise RuntimeError
  else set_performed ;;; compute_crossings true.

Definition wire_crossings : M CrossVerifier py_result :=
  self <- get ;;
  if performed self then raise RuntimeError
  else set_performed ;;; compute_crossings false.

(* ================================================================== *)
(** ** The traced classes (TracedRangeIndex, TracedResultSet,
    TracedCrossVerifier)

    The verifier, its index and its result set all hold the same list
    object [trace]; it is one field of the traced verifier's state, and
    every append goes to it. *)

(** A trace record: a dict whose ['type'] is one of five strings. *)
Inductive trace_entry : Type :=
| TrAdd (id : string)
| TrDelete (id : string)
| TrList (from to : Z) (ids : list string)
| TrCount (from to : Z) (count : nat)
| TrCrossing (id1 id2 : string)
| TrSweep (x : Z).

Record TracedCrossVerifier : Type := mkTraced {
  base : CrossVerifier;
  trace : list trace_entry
}.

(** [TracedCrossVerifier.__init__]: the verifier is built first, then the
    trace, the traced index and the traced result set replace the plain
    ones, all empty. *)
Definition TracedCrossVerifier_init (layer : WireLayer)
  : result TracedCrossVerifier :=
  match CrossVerifier_init layer with
  | Raise e => Raise e
  | Ok v =>
      Ok (mkTraced (mkCrossVerifier (events v) RangeIndex_init
                                    (mkResultSet []) (performed v))
                   [])
  end.

Definition trace_append {S} (e : trace_entry) : M (S * list trace_entry) unit :=
  fun s => (Ok tt, (fst s, snd s ++ [e])).

(** Runs a method of the plain class on the object part of the state. *)
Definition untraced {S A} (c : M S A) : M (S * list trace_entry) A :=
  fun s => let (r, o) := c (fst s) in (r, (o, snd s)).

(** [key.wire.name] *)
Definition key_wire_name {S} (k : KWP) : M S string :=
  match wire k with
  | None => raise AttributeError
  | Some w => ret (name w)
  end.

(** [[key.wire.name for key in result]] *)
Fixpoint key_wire_names {S} (ks : list KWP) : M S (list string) :=
  match ks with
  | [] => ret []
  | k :: ks' =>
      n <- key_wire_name k ;;
      ns <- key_wire_names ks' ;;
      ret (n :: ns)
  end.

Definition TracedRangeIndex_add (k : KWP)
  : M (RangeIndex * list trace_entry) unit :=
  n <- key_wire_name k ;;
  trace_append (TrAdd n) ;;;
  untraced (RangeIndex_add k).

Definition TracedRangeIndex_remove (k : KWP)
  : M (RangeIndex * list trace_entry) unit :=
  n <- key_wire_name k ;;
  trace_append (TrDelete n) ;;;
  untraced (RangeIndex_remove k).

Definition TracedRangeIndex_list (first_key last_key : KWP)
  : M (RangeIndex * list trace_entry) (list KWP) :=
  self <- get ;;
  let result := RangeIndex_list (fst self) first_key last_key in
  ids <- key_wire_names result ;;
  trace_append (TrList (key first_key) (key last_key) ids) ;;;
  ret result.

Definition TracedRangeIndex_count (first_key last_key : KWP)
  : M (RangeIndex * list trace_entry) nat :=
  self <- get ;;
  let result := RangeIndex_count (fst self) first_key last_key in
  trace_append (TrCount (key first_key) (key last_key) result) ;;;
  ret result.

Definition TracedResultSet_add_crossing (wire1 wire2 : Wire)
  : M (ResultSet * list trace_entry) unit :=
  trace_append (TrCrossing (name wire1) (name wire2)) ;;;
  untraced (fun rs => (Ok tt, add_crossing rs wire1 wire2)).

(** Runs a method of the traced index, or of the traced result set, inside
    a method of the traced verifier. *)
Definition on_traced_index {A} (c : M (RangeIndex * list trace_entry) A)
  : M TracedCrossVerifier A :=
  fun self =>
    let (r, s) := c (index (base self), trace self) in
    (r, mkTraced (mkCrossVerifier (events (base self)) (fst s)
                                  (result_set (base self))
                                  (performed (base self)))
                 (snd s)).

Definition on_traced_result_set {A} (c : M (ResultSet * list trace_entry) A)
  : M TracedCrossVerifier A :=
  fun self =>
    let (r, s) := c (result_set (base self), trace self) in
    (r, mkTraced (mkCrossVerifier (events (base self)) (index (base self))
                                  (fst s) (performed (base self)))
                 (snd s)).

(** [TracedCrossVerifier.trace_sweep_line] *)
Definition trace_sweep_line (x : Z) : M TracedCrossVerifier unit :=
  fun self => (Ok tt, mkTraced (base self) (trace self ++ [TrSweep x])).

(** [_compute_crossings] as the traced verifier runs it: the inherited
    loop, with the traced index, the traced result set and the overridden
    [trace_sweep_line]. *)
Definition traced_process_event (count_only : bool) (event : Event)
                                (result : nat)
  : M TracedCrossVerifier nat :=
  let w := ev_wire event in
  match ev_type event with
  | add =>
      on_traced_index (TracedRangeIndex_add (KeyWirePair (y1 w) w)) ;;;
      ret result
  | delete =>
      on_traced_index (TracedRangeIndex_remove (KeyWirePair (y1 w) w)) ;;;
      ret result
  | query =>
      trace_sweep_line (ev_x event) ;;;
      kwps <- on_traced_index
                (TracedRangeIndex_list (KeyWirePairL (y1 w))
                                       (KeyWirePairH (y2 w))) ;;
      cross_wires <- collect_cross_wires w kwps [] ;;
      if count_only then ret (result + length cross_wires)%nat
      else for_each cross_wires
             (fun cross_wire =>
                on_traced_result_set (TracedResultSet_add_crossing w cross_wire))
           ;;; ret result
  end.

Fixpoint traced_sweep (count_only : bool) (evs : list Event) (result : nat)
  : M TracedCrossVerifier nat :=
  match evs with
  | [] => ret result
  | event :: evs' =>
      r <- traced_process_event count_only event result ;;
      traced_sweep count_only evs' r
  end.

Definition traced_compute_crossings (count_only : bool)
  : M TracedCrossVerifier py_result :=
  self <- get ;;
  n <- traced_sweep count_only (events (base self)) 0%nat ;;
  if count_only then ret (PyInt n)
  else self' <- get ;; ret (PyResultSet (result_set (base self'))).

Definition traced_set_performed : M TracedCrossVerifier unit :=
  fun self =>
    (Ok tt, mkTraced (mkCrossVerifier (events (base self)) (index (base self))
                                      (result_set (base self)) true)
                     (trace self)).

Definition traced_count_crossings : M TracedCrossVerifier py_result :=
  self <- get ;;
  if performed (base self) then raise RuntimeError
  else traced_set_performed ;;; traced_compute_crossings true.

Definition traced_wire_crossings : M TracedCrossVerifier py_result :=
  self <- get ;;
  if performed (base self) then raise RuntimeError
  else traced_set_performed ;;; traced_compute_crossings false.

(** [TracedCrossVerifier.trace_as_json] *)
Definition trace_as_json (self : TracedCrossVerifier) : list trace_entry :=
  trace self.

(** The crossings a trace records, each as the result set would store
    it. *)
Definition trace_crossings (tr : list trace_entry) : list (list string) :=
  flat_map (fun e => match e with
                     | TrCrossing a b => [sorted_names a b]
                     | _ => []
                     end) tr.

(* ================================================================== *)
(** ** Sequences of index operations and the reference scan *)

Inductive index_op : Type :=
| OpAdd (k : KWP)
| OpRemove (k : KWP).

Definition run_op (o : index_op) : M RangeIndex unit :=
  match o with
  | OpAdd k => RangeIndex_add k
  | OpRemove k => RangeIndex_remove k
  end.

Definition run_ops (ops : list index_op) : M RangeIndex unit :=
  for_each ops run_op.

(** The keys added by a sequence of operations, in order. *)
Fixpoint added_keys (ops : list index_op) : list KWP :=
  match ops with
  | [] => []
  | OpAdd k :: ops' => k :: added_keys ops'
  | OpRemove _ :: ops' => added_keys ops'
  end.

(** Reference model of the active set, for comparison with the index: a
    plain list from which a removed key is dropped (first equal entry). *)
Fixpoint drop_first (k : KWP) (l : list KWP) : list KWP :=
  match l with
  | [] => []
  | h :: t => if kwp_eq h k then t else h :: drop_first k t
  end.

Fixpoint ref_active (ops : list index_op) (active : list KWP) : list KWP :=
  match ops with
  | [] => active
  | OpAdd k :: ops' => ref_active ops' (active ++ [k])
  | OpRemove k :: ops' => ref_active ops' (drop_first k active)
  end.

Definition ref_scan (active : list KWP) (lo hi : KWP) : list KWP :=
  filter (in_range lo hi) active.

(** Ascending key order. *)
Definition ascending (l : list KWP) : Prop :=
  StronglySorted (fun a b => kwp_lt a b = true) l.

(* ================================================================== *)
(** ** Invariants *)

(** The ordering the tree is kept in: keys of the left subtree are
    strictly below the node's key, keys of the right subtree are not below
    it.  (Equal keys can appear on the right, see [remove_found].) *)
Fixpoint bst_ok (t : bst) : Prop :=
  match t with
  | NoNode => True
  | BST_Node l k r =>
      Forall (fun x => kwp_lt x k = true) (node_list l) /\
      Forall (fun x => kwp_lt x k = false) (node_list r) /\
      bst_ok l /\ bst_ok r
  end.

(** A key equal to [k] (same key, same wire id) is stored in the tree. *)
Definition present (k : KWP) (t : bst) : Prop :=
  exists x, In x (node_list t) /\ kwp_eq x k = true.

(** A wire as [Wire.__init__] leaves it. *)
Definition wire_ok (w : Wire) : Prop :=
  x1 w <= x2 w /\ y1 w <= y2 w /\ (is_horizontal w || is_vertical w) = true.

(** A layer as [add_wire] builds it: constructed wires with pairwise
    distinct object ids. *)
Definition layer_wf (layer : WireLayer) : Prop :=
  Forall wire_ok (layer_values layer) /\
  NoDup (map object_id (layer_values layer)).

(* ================================================================== *)
(** ** What the sweep computes, as a function of the event list *)

(** The key under which the sweep files a horizontal wire. *)
Definition kwp_of (w : Wire) : KWP := KeyWirePair (y1 w) w.

(** The wires among [kwps] that [w] intersects, in order. *)
Definition cross_list (w : Wire) (kwps : list KWP) : list Wire :=
  flat_map (fun k => match wire k with
                     | Some h => if intersects w h then [h] else []
                     | None => []
                     end) kwps.

(** The keys a query for wire [w] gets back from an index holding [dat]. *)
Definition query_range (w : Wire) (dat : list KWP) : list KWP :=
  filter (in_range (KeyWirePairL (y1 w)) (KeyWirePairH (y2 w))) dat.

(** The keys the add events of [evs] append to the index. *)
Definition added_kwps (evs : list Event) : list KWP :=
  flat_map (fun e => match ev_type e with
                     | add => [kwp_of (ev_wire e)]
                     | _ => []
                     end) evs.

(** The pairs (query wire, crossing wire) in discovery order, for an index
    whose [data] is [dat] when the events [evs] start. *)
Fixpoint sweep_pairs (evs : list Event) (dat : list KWP) : list (Wire * Wire) :=
  match evs with
  | [] => []
  | e :: evs' =>
      match ev_type e with
      | add => sweep_pairs evs' (dat ++ [kwp_of (ev_wire e)])
      | delete => sweep_pairs evs' dat
      | query =>
          map (pair (ev_wire e))
              (cross_list (ev_wire e) (query_range (ev_wire e) dat))
          ++ sweep_pairs evs' dat
      end
  end.

Definition pair_names (p : Wire * Wire) : list string :=
  sorted_names (name (fst p)) (name (snd p)).

(** Events in the order [sort] leaves them: no later event is below an
    earlier one. *)
Definition events_sorted (evs : list Event) : Prop :=
  StronglySorted (fun a b => event_lt b a = false) evs.

(** The event list of a well-formed layer, however ordered: distinct
    events, each in the form [_events_from_layer] gives it, for wires with
    normalised endpoints, and with object ids that identify the wire. *)
Definition events_ok (evs : list Event) : Prop :=
  NoDup evs /\
  (forall e, In e evs ->
     (e = add_event (ev_wire e) \/ e = delete_event (ev_wire e)
      \/ e = query_event (ev_wire e)) /\
     x1 (ev_wire e) <= x2 (ev_wire e)) /\
  (forall e e', In e evs -> In e' evs ->
     ev_id e = ev_id e' -> ev_wire e = ev_wire e') /\
  (forall w, In (delete_event w) evs -> In (add_event w) evs).

(** The state of the index after the events [done]: the tree is ordered
    and stores the key of every wire added and not yet deleted, and every
    key of [data] carries a wire. *)
Definition index_inv (done : list Event) (i : RangeIndex) : Prop :=
  bst_ok (bst_data i) /\
  (forall w, In (add_event w) done -> ~ In (delete_event w) done ->
             present (kwp_of w) (bst_data i)) /\
  Forall (fun k => wire k <> None) (data i).

(** A reported pair (query wire, crossing wire) is a genuine crossing of
    the layer: a vertical and a horizontal wire that intersect. *)
Definition genuine_crossing (layer : WireLayer) (p : Wire * Wire) : Prop :=
  In (fst p) (layer_values layer) /\ In (snd p) (layer_values layer) /\
  is_vertical (fst p) = true /\ is_horizontal (fst p) = false /\
  is_horizontal (snd p) = true /\
  intersects (fst p) (snd p) = true.

(* ================================================================== *)
(** ** Concrete wires and layers used as test inputs *)

Definition demo_layer : result WireLayer * Z :=
  add_wires []
    [("H", (0, 0), (10, 0)); ("V", (5, 5), (5, -5));
     ("H2", (5, 3), (0, 3)); ("W", (7, -1), (7, 4))]%string 0.

Definition wH : Wire := mkWire "H" 0 0 10 0 0.
Definition wV : Wire := mkWire "V" 5 (-5) 5 5 1.
Definition wH2 : Wire := mkWire "H2" 0 3 5 3 2.
Definition wW : Wire := mkWire "W" 7 (-1) 7 4 3.

Definition layer4 : WireLayer :=
  [("H", wH); ("V", wV); ("H2", wH2); ("W", wW)]%string.

(** A vertical wire standing on the right end of a horizontal one. *)
Definition wA : Wire := mkWire "A" 0 0 10 0 0.
Definition wB : Wire := mkWire "B" 10 0 10 5 1.

Definition touch_layer : WireLayer := [("A", wA); ("B", wB)]%string.

(** Two parallel horizontal wires. *)
Definition parallel_layer : WireLayer :=
  [("H1", mkWire "H1" 0 0 10 0 0); ("H2", mkWire "H2" 0 1 10 1 1)]%string.

(** Three horizontal wires crossed by one vertical wire. *)
Definition comb_layer : WireLayer :=
  [("a", mkWire "a" 0 1 10 1 0); ("b", mkWire "b" 0 2 10 2 1);
   ("c", mkWire "c" 0 3 10 3 2); ("v", mkWire "v" 5 0 5 4 3)]%string.

(** The outcome of both entry points on fresh verifiers of a layer. *)
Definition verify (layer : WireLayer)
  : option (result py_result * result py_result) :=
  match CrossVerifier_init layer with
  | Ok v => Some (fst (count_crossings v), fst (wire_crossings v))
  | Raise _ => None
  end.

(** Keys 1 to 4 of four horizontal wires, and the tree that holds 2 at the
    root, 1 on its left, and 3 with right child 4 on its right. *)
Definition key_n (n : Z) : KWP :=
  KeyWirePair n (mkWire "w" 0 n 1 n n).

Definition tree_2_1_3_4 : bst :=
  BST_Node (BST_Node NoNode (key_n 1) NoNode)
           (key_n 2)
           (BST_Node NoNode (key_n 3) (BST_Node NoNode (key_n 4) NoNode)).

(** The fresh verifier of [layer4]. *)
Definition verifier4 : CrossVerifier :=
  mkCrossVerifier (sort_events (flat_map wire_events (layer_values layer4)))
                  RangeIndex_init (mkResultSet []) false.

Definition kH : KWP := KeyWirePair 0 wH.
Definition kH2 : KWP := KeyWirePair 3 wH2.

(* ================================================================== *)
(** ** Further test inputs and notions used in the properties below *)

Definition demo_records : list wire_record :=
  [("H", (0, 0), (10, 0)); ("V", (5, 5), (5, -5));
   ("H2", (5, 3), (0, 3)); ("W", (7, -1), (7, 4))]%string.

(** The object ids [next], [next + 1], ... of [n] wires built in a row. *)
Definition consecutive_ids (next : Z) (n : nat) : list Z :=
  map (fun i => next + Z.of_nat i) (seq 0 n).

(** Non-descending key order (equal keys may repeat). *)
Definition non_descending (l : list KWP) : Prop :=
  StronglySorted (fun a b => kwp_lt b a = false) l.

(** The vertical wire V and the horizontal wire H cross. *)
Definition crosses (layer : WireLayer) (V H : Wire) : Prop :=
  In V (layer_values layer) /\ In H (layer_values layer) /\
  is_horizontal V = false /\ is_horizontal H = true /\
  intersects V H = true.

(** The wires carried by a list of keys. *)
Definition wires_of (ks : list KWP) : list Wire :=
  flat_map (fun k => match wire k with Some w => [w] | None => [] end) ks.

(** The wires of the query events of an event list. *)
Definition query_wires (evs : list Event) : list Wire :=
  flat_map (fun e => match ev_type e with
                     | query => [ev_wire e]
                     | _ => []
                     end) evs.

(** The wires of the add events of an event list. *)
Definition added_wires (evs : list Event) : list Wire :=
  flat_map (fun e => match ev_type e with
                     | add => [ev_wire e]
                     | _ => []
                     end) evs.

(** The bound on object ids that the query sentinels assume. *)
Definition ids_in_sentinel_range (layer : WireLayer) : Prop :=
  Forall (fun w => -1000000000 <= object_id w <= 1000000000)
         (layer_values layer).

(** [a] stands before [b] in [l]. *)
Definition precedes {A} (a b : A) (l : list A) : Prop :=
  exists d r, l = d ++ b :: r /\ In a d.

(** The fresh traced verifier of [layer4]. *)
Definition traced_verifier4 : TracedCrossVerifier := mkTraced verifier4 [].

(** A horizontal wire with a point wire on its right end. *)
Definition point_records : list wire_record :=
  [("A", (0, 0), (10, 0)); ("P", (10, 0), (10, 0))]%string.

Definition wP : Wire := mkWire "P" 10 0 10 0 1.

Definition point_layer : WireLayer := [("A", wA); ("P", wP)]%string.

(** A horizontal wire and a vertical wire reaching up to it at its right
    end, built when the id counter stands above 10^9. *)
Definition far_records : list wire_record :=
  [("H", (0, 5), (10, 5)); ("V", (10, 0), (10, 5))]%string.

Definition wFH : Wire := mkWire "H" 0 5 10 5 1000000001.
Definition wFV : Wire := mkWire "V" 10 0 10 5 1000000002.

Definition far_layer : WireLayer := [("H", wFH); ("V", wFV)]%string.

(** The node the search loop of [remove] stops at: its left child, its
    key and its right child. *)
Fixpoint remove_locate_node (node : bst) (kwp : KWP)
  : option (bst * KWP * bst) :=
  match node with
  | NoNode => None
  | BST_Node l k r =>
      if kwp_ne k kwp then
        if kwp_lt kwp k then remove_locate_node l kwp
        else remove_locate_node r kwp
      else Some (l, k, r)
  end.

(** The shape in which case 5 of [remove] unlinks nothing: the node has
    two children, and its right child has no left child but has a right
    child. *)
Definition keeps_successor (l r : bst) : bool :=
  match l, r with
  | BST_Node _ _ _, BST_Node NoNode _ (BST_Node _ _ _) => true
  | _, _ => false
  end.

(** Either entry point of the plain and of the traced verifier. *)
Definition call (count_only : bool) : M CrossVerifier py_result :=
  if count_only then count_crossings else wire_crossings.

Definition traced_call (count_only : bool) : M TracedCrossVerifier py_result :=
  if count_only then traced_count_crossings else traced_wire_crossings.

(* ================================================================== *)
(** * Properties *)

(** ** Arithmetic of the comparisons *)

Ltac zbool :=
  repeat match goal with
  | H : context [Z.gtb ?a ?b] |- _ => rewrite (Z.gtb_ltb a b) in H
  | H : context [Z.geb ?a ?b] |- _ => rewrite (Z.geb_leb a b) in H
  | |- context [Z.gtb ?a ?b] => rewrite (Z.gtb_ltb a b)
  | |- context [Z.geb ?a ?b] => rewrite (Z.geb_leb a b)
  end;
  repeat match goal with
  | H : context [Z.ltb ?a ?b] |- _ => destruct (Z.ltb_spec a b)
  | H : context [Z.leb ?a ?b] |- _ => destruct (Z.leb_spec a b)
  | H : context [Z.eqb ?a ?b] |- _ => destruct (Z.eqb_spec a b)
  | |- context [Z.ltb ?a ?b] => destruct (Z.ltb_spec a b)
  | |- context [Z.leb ?a ?b] => destruct (Z.leb_spec a b)
  | |- context [Z.eqb ?a ?b] => destruct (Z.eqb_spec a b)
  end;
  simpl in *; try discriminate; try reflexivity; try lia.

(** Facts of the form [comparison = true] or [= false], through linear
    arithmetic. *)
Ltac bool_lia :=
  rewrite ?Z.gtb_ltb, ?Z.geb_leb in *;
  repeat (progress rewrite ?orb_true_iff, ?orb_false_iff, ?andb_true_iff,
                           ?andb_false_iff, ?negb_true_iff, ?negb_false_iff,
                           ?Z.ltb_lt, ?Z.ltb_ge, ?Z.leb_le, ?Z.leb_gt,
                           ?Z.eqb_eq, ?Z.eqb_neq in *);
  lia.

Ltac kwp_eqn :=
  unfold kwp_lt, kwp_le, kwp_gt, kwp_ge, kwp_eq, kwp_ne in *; zbool.

Ltac kwp_cmp :=
  unfold kwp_lt, kwp_le, kwp_gt, kwp_ge, kwp_eq, kwp_ne in *; bool_lia.

Lemma kwp_ne_eq a b : kwp_ne a b = negb (kwp_eq a b).
Proof. kwp_eqn. Qed.

Lemma kwp_gt_lt a b : kwp_gt a b = kwp_lt b a.
Proof. kwp_eqn. Qed.

(** [key <= last_key] with [last_key] of a subclass of [key]'s class is
    evaluated by Python as [last_key.__ge__(key)]; the two agree. *)
Lemma kwp_ge_le a b : kwp_ge b a = kwp_le a b.
Proof. kwp_eqn. Qed.

Lemma kwp_lt_irrefl a : kwp_lt a a = false.
Proof. kwp_cmp. Qed.

Lemma kwp_eq_refl a : kwp_eq a a = true.
Proof. kwp_cmp. Qed.



Lemma kwp_lt_nlt_trans a b c :
  kwp_lt a b = true -> kwp_lt c b = false -> kwp_lt a c = true.
Proof. kwp_cmp. Qed.




(* ================================================================== *)
(** ** Wire construction *)

Lemma Wire_init_counter nm ax ay bx by_ next :
  snd (Wire_init nm ax ay bx by_ next) = next + 1.
Proof.
  unfold Wire_init, bind, next_object_id.
  match goal with |- context [negb ?c] => destruct c end; reflexivity.
Qed.

(** What a successful construction yields. *)
Lemma Wire_init_ok nm ax ay bx by_ next w :
  fst (Wire_init nm ax ay bx by_ next) = Ok w ->
  name w = nm /\ object_id w = next /\
  x1 w = Z.min ax bx /\ x2 w = Z.max ax bx /\
  y1 w = Z.min ay by_ /\ y2 w = Z.max ay by_ /\
  (is_horizontal w || is_vertical w) = true.
Proof.
  unfold Wire_init, bind, next_object_id.
  match goal with |- context [negb ?c] => destruct c eqn:Hc end;
    cbn; intros H; inversion H; subst; clear H; cbn.
  repeat split; try exact Hc; clear Hc; zbool.
Qed.

(** C7, counterexample: the point segment (1,1)-(1,1) is accepted, and
    the wire built from it is horizontal and vertical at once. *)
Lemma Wire_init_accepts_point :
  exists w, fst (Wire_init "p" 1 1 1 1 0) = Ok w /\
            is_horizontal w = true /\ is_vertical w = true.
Proof. eexists. repeat split. Qed.

(** C7, as the code has it: construction is rejected, with ValueError,
    exactly when the endpoints differ in both coordinates; every
    constructed wire, a point included, has x1 = x2 or y1 = y2 (not
    necessarily only one of them) and normalised endpoints. *)
Theorem Wire_init_rejects_iff_oblique nm ax ay bx by_ next :
  match fst (Wire_init nm ax ay bx by_ next) with
  | Raise e => e = ValueError /\ ax <> bx /\ ay <> by_
  | Ok w => (ax = bx \/ ay = by_) /\
            (x1 w = x2 w \/ y1 w = y2 w) /\
            x1 w <= x2 w /\ y1 w <= y2 w
  end.
Proof.
  unfold Wire_init, bind, next_object_id, is_horizontal, is_vertical.
  cbn. zbool.
  all: repeat split; try lia; auto.
Qed.

(* ================================================================== *)
(** ** RangeIndex: list and count *)

Lemma count_loop_acc first_key last_key l n :
  fold_left
    (fun result k =>
       if in_range first_key last_key k then (result + 1)%nat else result)
    l n
  = (n + length (filter (in_range first_key last_key) l))%nat.
Proof.
  revert n. induction l as [|k l IH]; intros n; simpl.
  - lia.
  - rewrite IH. destruct (in_range first_key last_key k); simpl; lia.
Qed.

(** C9: the counting loop and the listing comprehension agree, for every
    index state and every pair of bounds. *)
Theorem RangeIndex_count_eq_length_list self first_key last_key :
  RangeIndex_count self first_key last_key
  = length (RangeIndex_list self first_key last_key).
Proof.
  unfold RangeIndex_count, RangeIndex_list.
  now rewrite count_loop_acc.
Qed.

Lemma RangeIndex_count_length self first_key last_key :
  RangeIndex_count self first_key last_key
  = length (filter (in_range first_key last_key) (data self)).
Proof. unfold RangeIndex_count. now rewrite count_loop_acc. Qed.

(** The methods of the index never touch [data] except [add], which
    appends. *)
Lemma RangeIndex_add_spec k self :
  RangeIndex_add k self
  = (Ok tt, mkRangeIndex (data self ++ [k])
                         (snd (BST_insert (bst_data self) k))).
Proof.
  unfold RangeIndex_add, bind, on_bst, BSTree_insert, ret. cbn.
  destruct (BST_insert (bst_data self) k); reflexivity.
Qed.

Lemma RangeIndex_remove_data k self :
  data (snd (RangeIndex_remove k self)) = data self.
Proof.
  unfold RangeIndex_remove, bind, on_bst, ret.
  destruct (BSTree_remove k (bst_data self)) as [[b|e] t]; reflexivity.
Qed.

Lemma for_each_cons {S A} (x : A) xs (body : A -> M S unit) s :
  for_each (x :: xs) body s
  = match body x s with
    | (Ok _, s') => for_each xs body s'
    | (Raise e, s') => (Raise e, s')
    end.
Proof. reflexivity. Qed.

(** After a run that did not raise, [data] holds every key ever added. *)
Lemma run_ops_data ops : forall self self',
  run_ops ops self = (Ok tt, self') ->
  data self' = data self ++ added_keys ops.
Proof.
  induction ops as [|o ops IH]; intros self self' H.
  - inversion H; subst. now rewrite app_nil_r.
  - unfold run_ops in H. rewrite for_each_cons in H.
    destruct (run_op o self) as [[u|e] s1] eqn:Ho; [|discriminate].
    apply IH in H. rewrite H. destruct o as [k|k]; simpl in Ho.
    + rewrite RangeIndex_add_spec in Ho. inversion Ho; subst; simpl.
      now rewrite <- app_assoc.
    + pose proof (RangeIndex_remove_data k self) as Hd.
      rewrite Ho in Hd. simpl in Hd. now rewrite Hd.
Qed.

Lemma filter_ascending (f : KWP -> bool) l :
  ascending l -> ascending (filter f l).
Proof.
  unfold ascending. induction 1 as [|a l Hs IH Ha]; simpl.
  - constructor.
  - destruct (f a); auto. constructor; auto.
    rewrite Forall_forall in *. intros x Hx.
    apply filter_In in Hx. apply Ha, Hx.
Qed.

(** C6, counterexample: two keys added in descending order are listed in
    that order, although the bounds are in order. *)
Lemma RangeIndex_list_not_ascending :
  let self := snd (run_ops [OpAdd kH2; OpAdd kH] RangeIndex_init) in
  kwp_le (KeyWirePairL 0) (KeyWirePairH 5) = true /\
  RangeIndex_list self (KeyWirePairL 0) (KeyWirePairH 5) = [kH2; kH] /\
  ~ ascending (RangeIndex_list self (KeyWirePairL 0) (KeyWirePairH 5)).
Proof.
  cbn. repeat split.
  intros H. inversion H as [|a l Hs Ha]; subst.
  inversion Ha as [|b l' Hb Hl]; subst. discriminate Hb.
Qed.

(** C6, as the code has it: the result lists the in-range keys in the
    order in which they were added, so it is ascending whenever the keys
    were added in ascending order. *)
Theorem RangeIndex_list_insertion_order ops self first_key last_key :
  run_ops ops RangeIndex_init = (Ok tt, self) ->
  RangeIndex_list self first_key last_key
  = filter (in_range first_key last_key) (added_keys ops)
  /\ (ascending (added_keys ops) ->
      ascending (RangeIndex_list self first_key last_key)).
Proof.
  intros H. apply run_ops_data in H. simpl in H.
  unfold RangeIndex_list. rewrite H. split; [reflexivity|].
  apply filter_ascending.
Qed.

Lemma RangeIndex_list_insertion_order_witness :
  RangeIndex_list (snd (run_ops [OpAdd kH; OpAdd kH2] RangeIndex_init))
                  (KeyWirePairL 0) (KeyWirePairH 5)
  = [kH; kH2].
Proof.
  exact (proj1 (@RangeIndex_list_insertion_order
                  [OpAdd kH; OpAdd kH2] _ (KeyWirePairL 0) (KeyWirePairH 5)
                  eq_refl)).
Defined.

(** C1, the failing run: a key that was added and then removed is still
    listed, while the reference scan of the active set lists nothing. *)
Theorem RangeIndex_list_after_remove :
  let ops := [OpAdd kH; OpRemove kH] in
  exists self,
    run_ops ops RangeIndex_init = (Ok tt, self) /\
    bst_data self = NoNode /\
    RangeIndex_list self (KeyWirePairL 0) (KeyWirePairH 0) = [kH] /\
    ref_scan (ref_active ops []) (KeyWirePairL 0) (KeyWirePairH 0) = [].
Proof. cbn. eexists. repeat split. Qed.

(* ================================================================== *)
(** ** The binary search tree *)


Lemma bst_ok_node l k r :
  bst_ok (BST_Node l k r) <->
  Forall (fun x => kwp_lt x k = true) (node_list l) /\
  Forall (fun x => kwp_lt x k = false) (node_list r) /\
  bst_ok l /\ bst_ok r.
Proof. reflexivity. Qed.

Lemma bst_ok_intro l k r :
  Forall (fun x => kwp_lt x k = true) (node_list l) ->
  Forall (fun x => kwp_lt x k = false) (node_list r) ->
  bst_ok l -> bst_ok r -> bst_ok (BST_Node l k r).
Proof. simpl. auto. Qed.

(** *** insert *)

Lemma BST_insert_In t k x :
  In x (node_list (snd (BST_insert t k))) ->
  In x (node_list t) \/ x = k.
Proof.
  induction t as [|l IHl k0 r IHr]; simpl.
  - intuition.
  - destruct (kwp_eq k0 k); [simpl; auto|].
    destruct (kwp_gt k0 k).
    + destruct (BST_insert l k) as [b l']; simpl in *.
      rewrite !in_app_iff; simpl. intuition.
    + destruct (BST_insert r k) as [b r']; simpl in *.
      rewrite !in_app_iff; simpl. intuition.
Qed.

Lemma BST_insert_keeps t k x :
  In x (node_list t) -> In x (node_list (snd (BST_insert t k))).
Proof.
  induction t as [|l IHl k0 r IHr]; simpl; [tauto|].
  destruct (kwp_eq k0 k); [simpl; auto|].
  destruct (kwp_gt k0 k).
  - destruct (BST_insert l k) as [b l']; simpl in *.
    rewrite !in_app_iff; simpl. intuition.
  - destruct (BST_insert r k) as [b r']; simpl in *.
    rewrite !in_app_iff; simpl. intuition.
Qed.

Lemma BST_insert_present t k : present k (snd (BST_insert t k)).
Proof.
  unfold present.
  induction t as [|l IHl k0 r IHr]; simpl.
  - exists k. split; [now left|apply kwp_eq_refl].
  - destruct (kwp_eq k0 k) eqn:E.
    + exists k0. simpl. rewrite in_app_iff. simpl. auto.
    + destruct (kwp_gt k0 k).
      * destruct (BST_insert l k) as [b l']; simpl in *.
        destruct IHl as (x & Hx & Hk). exists x.
        rewrite in_app_iff. auto.
      * destruct (BST_insert r k) as [b r']; simpl in *.
        destruct IHr as (x & Hx & Hk). exists x.
        rewrite in_app_iff. simpl. auto.
Qed.

Lemma BST_insert_ok t k : bst_ok t -> bst_ok (snd (BST_insert t k)).
Proof.
  induction t as [|l IHl k0 r IHr]; simpl.
  - intros _. repeat split; constructor.
  - intros (Hl & Hr & Hokl & Hokr).
    destruct (kwp_eq k0 k) eqn:E; [simpl; auto|].
    destruct (kwp_gt k0 k) eqn:G.
    + pose proof (BST_insert_In l k) as Hin.
      destruct (BST_insert l k) as [b l']; simpl in *.
      repeat split; auto.
      rewrite Forall_forall in *. intros x Hx.
      destruct (Hin x Hx) as [H|H]; [auto|subst x].
      now rewrite kwp_gt_lt in G.
    + pose proof (BST_insert_In r k) as Hin.
      destruct (BST_insert r k) as [b r']; simpl in *.
      repeat split; auto.
      rewrite Forall_forall in *. intros x Hx.
      destruct (Hin x Hx) as [H|H]; [auto|subst x].
      clear - E G. kwp_cmp.
Qed.


(** *** remove: the search loop *)

Lemma remove_locate_stops t k nk :
  remove_locate t k = Some nk -> kwp_ne nk k = false.
Proof.
  induction t as [|l IHl k0 r IHr]; simpl; [discriminate|].
  destruct (kwp_ne k0 k) eqn:E.
  - destruct (kwp_lt k k0); auto.
  - intros H. inversion H; subst. exact E.
Qed.

Lemma remove_locate_found t k nk :
  remove_locate t k = Some nk -> present k t.
Proof.
  unfold present.
  induction t as [|l IHl k0 r IHr]; simpl; [discriminate|].
  destruct (kwp_ne k0 k) eqn:E.
  - destruct (kwp_lt k k0); intros H.
    + destruct (IHl H) as (x & Hx & Hk). exists x. rewrite in_app_iff. auto.
    + destruct (IHr H) as (x & Hx & Hk). exists x. rewrite in_app_iff.
      simpl. auto.
  - intros _. exists k0. rewrite in_app_iff. simpl. split; auto.
    rewrite kwp_ne_eq in E. now destruct (kwp_eq k0 k).
Qed.

Lemma remove_locate_from t k :
  remove_locate t k = None <-> remove_from t k = None.
Proof.
  induction t as [|l IHl k0 r IHr]; simpl; [tauto|].
  destruct (kwp_ne k0 k).
  - destruct (kwp_lt k k0).
    + rewrite IHl. destruct (remove_from l k); simpl; split; congruence.
    + rewrite IHr. destruct (remove_from r k); simpl; split; congruence.
  - split; discriminate.
Qed.

Lemma remove_locate_absent t k :
  ~ present k t -> remove_locate t k = None.
Proof.
  unfold present.
  induction t as [|l IHl k0 r IHr]; simpl; intros Hn; [reflexivity|].
  destruct (kwp_ne k0 k) eqn:E.
  - destruct (kwp_lt k k0).
    + apply IHl. intros (x & Hx & Hk). apply Hn. exists x.
      rewrite in_app_iff. auto.
    + apply IHr. intros (x & Hx & Hk). apply Hn. exists x.
      rewrite in_app_iff. simpl. auto.
  - exfalso. apply Hn. exists k0. rewrite in_app_iff. simpl.
    rewrite kwp_ne_eq in E. destruct (kwp_eq k0 k); [auto|discriminate].
Qed.

Lemma remove_locate_present t k :
  bst_ok t -> present k t -> remove_locate t k <> None.
Proof.
  induction t as [|l IHl k0 r IHr]; simpl.
  - intros _ (x & [] & _).
  - intros (Hl & Hr & Hokl & Hokr) (x & Hx & Hk).
    simpl in Hx. rewrite in_app_iff in Hx. simpl in Hx.
    rewrite Forall_forall in Hl, Hr.
    destruct (kwp_ne k0 k) eqn:E; [|discriminate].
    destruct (kwp_lt k k0) eqn:L.
    + apply IHl; auto. exists x. split; auto.
      destruct Hx as [Hx|[Hx|Hx]]; auto.
      * subst x. exfalso. clear - E Hk. kwp_cmp.
      * apply Hr in Hx. exfalso. clear - Hx Hk L. kwp_cmp.
    + apply IHr; auto. exists x. split; auto.
      destruct Hx as [Hx|[Hx|Hx]]; auto.
      * apply Hl in Hx. exfalso. clear - Hx Hk L. kwp_cmp.
      * subst x. exfalso. clear - E Hk. kwp_cmp.
Qed.

(** Case 1 of [remove] cannot be reached: the method returns True or
    raises. *)
Lemma BSTree_remove_never_False k root root' :
  BSTree_remove k root <> (Ok false, root').
Proof.
  unfold BSTree_remove.
  destruct (remove_locate root k) as [nk|] eqn:E; [|discriminate].
  rewrite (remove_locate_stops _ _ E).
  destruct (remove_from root k); discriminate.
Qed.

(** Removing a key that is not stored raises on [node.kwp_key] and leaves
    the tree as it was. *)
Lemma BSTree_remove_absent k root :
  ~ present k root -> BSTree_remove k root = (Raise AttributeError, root).
Proof.
  intros H. unfold BSTree_remove. now rewrite remove_locate_absent.
Qed.

(** *** remove: the in-order successor *)

(** In an ordered tree the in-order list is weakly ascending. *)
Lemma bst_ok_sorted t :
  bst_ok t -> StronglySorted (fun a b => kwp_lt b a = false) (node_list t).
Proof.
  induction t as [|l IHl k r IHr]; simpl.
  - constructor.
  - intros (Hl & Hr & Hokl & Hokr).
    specialize (IHl Hokl). specialize (IHr Hokr).
    assert (Hk : Forall (fun b => kwp_lt b k = false) (node_list r)) by exact Hr.
    revert IHl Hl. generalize (node_list l) as xs.
    induction xs as [|a xs IH]; simpl; intros Hs Hlt.
    + constructor; auto.
    + inversion Hs as [|? ? Hs' Ha]; subst.
      inversion Hlt as [|? ? Hak Hlt']; subst.
      constructor; auto.
      apply Forall_app. split; auto.
      constructor.
      * clear - Hak. kwp_cmp.
      * rewrite Forall_forall in Hr. apply Forall_forall. intros b Hb.
        specialize (Hr b Hb). clear - Hak Hr. kwp_cmp.
Qed.

Lemma unlink_lowest_left_spec pl : forall pk pr,
  bst_ok (BST_Node pl pk pr) -> pl <> NoNode ->
  node_list (BST_Node pl pk pr)
  = lowest_left_key pk pl :: node_list (unlink_lowest_left (BST_Node pl pk pr))
  /\ bst_ok (unlink_lowest_left (BST_Node pl pk pr)).
Proof.
  induction pl as [|pll IHl plk plr _]; intros pk pr Hok Hne; [congruence|].
  destruct pll as [|a b c].
  - (* delNode is the left child of this node *)
    destruct Hok as (Hl & Hr & (_ & Hlr & _ & Hokr) & Hokpr).
    assert (Hd : kwp_lt plk pk = true) by (inversion Hl; auto).
    simpl in Hl. inversion Hl as [|? ? _ Hl']; subst.
    simpl. unfold unlink_delNode. rewrite kwp_gt_lt, Hd.
    destruct plr as [|dl dk dr].
    + simpl. repeat split; auto.
    + split; [reflexivity|]. apply bst_ok_node.
      split; [exact Hl'|]. split; [exact Hr|]. split; [exact Hokr|exact Hokpr].
  - (* keep descending *)
    destruct Hok as (Hl & Hr & Hokl & Hokpr).
    destruct (IHl plk plr Hokl) as (Hlist & Hok'); [discriminate|].
    change (unlink_lowest_left (BST_Node (BST_Node (BST_Node a b c) plk plr) pk pr))
      with (BST_Node (unlink_lowest_left (BST_Node (BST_Node a b c) plk plr)) pk pr).
    change (lowest_left_key pk (BST_Node (BST_Node a b c) plk plr))
      with (lowest_left_key plk (BST_Node a b c)).
    change (node_list (BST_Node (BST_Node (BST_Node a b c) plk plr) pk pr))
      with (node_list (BST_Node (BST_Node a b c) plk plr) ++ pk :: node_list pr).
    rewrite Hlist in *. split; [reflexivity|].
    apply bst_ok_node. repeat split; auto.
    inversion Hl; auto.
Qed.

(** When [delNode] is a left child below its parent's key, its right
    subtree takes its place; no node becomes reachable twice. *)
Lemma unlink_delNode_left_child pl pk pr dk dr :
  kwp_lt dk pk = true ->
  unlink_delNode pl pk pr dk dr = BST_Node dr pk pr.
Proof.
  intros H. unfold unlink_delNode. rewrite kwp_gt_lt, H.
  now destruct dr.
Qed.

(** When [delNodeParent] is the node itself, its key already equals
    [delNode]'s: a [delNode] without right child is unlinked, one with a
    right child stays where it is, below a node with the same key. *)
Lemma unlink_delNode_self l dk dr :
  unlink_delNode l dk (BST_Node NoNode dk dr) dk dr
  = match dr with
    | NoNode => BST_Node l dk NoNode
    | BST_Node _ _ _ => BST_Node l dk (BST_Node NoNode dk dr)
    end.
Proof.
  unfold unlink_delNode. rewrite kwp_gt_lt, kwp_lt_irrefl. now destruct dr.
Qed.

Example remove_case5_keeps_successor :
  BSTree_remove (key_n 2) tree_2_1_3_4
  = (Ok true,
     BST_Node (BST_Node NoNode (key_n 1) NoNode)
              (key_n 3)
              (BST_Node NoNode (key_n 3) (BST_Node NoNode (key_n 4) NoNode))).
Proof. reflexivity. Qed.

(** *** remove: cases 2 to 5 *)

Lemma remove_found_spec l k r :
  bst_ok (BST_Node l k r) ->
  bst_ok (remove_found l r) /\
  (forall x, In x (node_list (remove_found l r)) <->
             In x (node_list l) \/ In x (node_list r)).
Proof.
  intros (Hl & Hr & Hokl & Hokr).
  destruct l as [|ll lk lr]; destruct r as [|rl rk rr].
  - simpl. split; [exact I|]. intros x; simpl; tauto.
  - split; [exact Hokr|]. intros x; simpl; tauto.
  - split; [exact Hokl|]. intros x; simpl; tauto.
  - set (l := BST_Node ll lk lr) in *.
    assert (Hlow : forall m, In m (node_list (BST_Node rl rk rr)) ->
                   Forall (fun x => kwp_lt x m = true) (node_list l)).
    { intros m Hm. rewrite Forall_forall in *. intros x Hx.
      eapply kwp_lt_nlt_trans; eauto. }
    destruct rl as [|a b c].
    + (* delNode is node.rightChild, delNodeParent is the node *)
      unfold remove_found, l. fold l.
      unfold unlink_delNode. rewrite kwp_gt_lt, kwp_lt_irrefl.
      assert (Hrk : Forall (fun x => kwp_lt x rk = true) (node_list l)).
      { apply Hlow. simpl. auto. }
      destruct rr as [|ra rb rc].
      * split.
        -- apply bst_ok_intro; auto. constructor.
        -- intros x. simpl. rewrite !in_app_iff. simpl. tauto.
      * split.
        -- apply bst_ok_intro; auto.
           destruct Hokr as (_ & Hrr & _). simpl.
           constructor; [apply kwp_lt_irrefl|exact Hrr].
        -- intros x. simpl. rewrite !in_app_iff. simpl.
           rewrite !in_app_iff. simpl. tauto.
    + (* delNode lies deeper in the right subtree *)
      set (r := BST_Node (BST_Node a b c) rk rr) in *.
      destruct (@unlink_lowest_left_spec (BST_Node a b c) rk rr Hokr)
        as (Hlist & Hok'); [discriminate|].
      fold r in Hlist, Hok'.
      set (m := lowest_left_key rk (BST_Node a b c)) in *.
      change (remove_found l r) with (BST_Node l m (unlink_lowest_left r)).
      pose proof (bst_ok_sorted _ Hokr) as Hs. rewrite Hlist in Hs.
      inversion Hs as [|? ? _ Hmin]; subst.
      split.
      * apply bst_ok_intro; auto.
        apply Hlow. rewrite Hlist. now left.
      * intros x. rewrite Hlist.
        change (node_list (BST_Node l m (unlink_lowest_left r)))
          with (node_list l ++ m :: node_list (unlink_lowest_left r)).
        rewrite in_app_iff. simpl. tauto.
Qed.

Lemma remove_from_spec t k :
  bst_ok t -> present k t ->
  exists t', remove_from t k = Some t' /\ bst_ok t' /\
             (forall x, In x (node_list t') -> In x (node_list t)) /\
             (forall x, In x (node_list t) -> kwp_eq x k = false ->
                        In x (node_list t')).
Proof.
  induction t as [|l IHl k0 r IHr].
  - intros _ (x & [] & _).
  - intros Hok (x & Hx & Hk).
    pose proof Hok as (Hl & Hr & Hokl & Hokr).
    simpl in Hx. rewrite in_app_iff in Hx. simpl in Hx.
    simpl remove_from.
    destruct (kwp_ne k0 k) eqn:E.
    + rewrite Forall_forall in Hl, Hr.
      destruct (kwp_lt k k0) eqn:L.
      * destruct IHl as (l' & Hrem & Hok' & Hsub & Hkeep); auto.
        { exists x. split; auto.
          destruct Hx as [Hx|[Hx|Hx]]; auto.
          - subst x. exfalso. clear - E Hk. kwp_cmp.
          - apply Hr in Hx. exfalso. clear - Hx Hk L. kwp_cmp. }
        rewrite Hrem. eexists. split; [reflexivity|]. split; [|split].
        -- apply bst_ok_intro; auto; apply Forall_forall; auto.
        -- intros y. simpl. rewrite !in_app_iff. intuition.
        -- intros y. simpl. rewrite !in_app_iff. intuition.
      * destruct IHr as (r' & Hrem & Hok' & Hsub & Hkeep); auto.
        { exists x. split; auto.
          destruct Hx as [Hx|[Hx|Hx]]; auto.
          - apply Hl in Hx. exfalso. clear - Hx Hk L. kwp_cmp.
          - subst x. exfalso. clear - E Hk. kwp_cmp. }
        rewrite Hrem. eexists. split; [reflexivity|]. split; [|split].
        -- apply bst_ok_intro; auto; apply Forall_forall; auto.
        -- intros y. simpl. rewrite !in_app_iff. simpl. intuition.
        -- intros y. simpl. rewrite !in_app_iff. simpl. intuition.
    + destruct (remove_found_spec Hok) as (Hok' & Hin).
      eexists. split; [reflexivity|]. split; [exact Hok'|]. split.
      * intros y Hy. apply Hin in Hy. simpl. rewrite in_app_iff. simpl. tauto.
      * intros y Hy Hne. apply Hin. simpl in Hy. rewrite in_app_iff in Hy.
        simpl in Hy. destruct Hy as [Hy|[Hy|Hy]]; auto.
        subst y. exfalso. clear - E Hne. kwp_cmp.
Qed.

(** Removing a stored key from an ordered tree returns True; the tree stays
    ordered, gains no key, and loses no key other than the removed one. *)
Lemma BSTree_remove_present k root :
  bst_ok root -> present k root ->
  exists root', BSTree_remove k root = (Ok true, root') /\ bst_ok root' /\
     (forall x, In x (node_list root') -> In x (node_list root)) /\
     (forall x, In x (node_list root) -> kwp_eq x k = false ->
                In x (node_list root')).
Proof.
  intros Hok Hp.
  destruct (remove_from_spec Hok Hp) as (t' & Hrem & H).
  exists t'. split; [|exact H].
  unfold BSTree_remove.
  destruct (remove_locate root k) as [nk|] eqn:E.
  - rewrite (remove_locate_stops _ _ E), Hrem. reflexivity.
  - apply remove_locate_from in E. congruence.
Qed.

(* ================================================================== *)
(** ** RangeIndex: add and remove *)

Lemma RangeIndex_remove_spec k self :
  RangeIndex_remove k self
  = match BSTree_remove k (bst_data self) with
    | (Ok _, t) => (Ok tt, mkRangeIndex (data self) t)
    | (Raise e, t) => (Raise e, mkRangeIndex (data self) t)
    end.
Proof.
  unfold RangeIndex_remove, bind, on_bst, ret.
  destruct (BSTree_remove k (bst_data self)) as [[b|e] t]; reflexivity.
Qed.

Lemma RangeIndex_eta self : mkRangeIndex (data self) (bst_data self) = self.
Proof. now destruct self. Qed.

(** Every index reached from the empty one keeps its tree ordered. *)
Lemma run_ops_bst_ok ops : forall self r self',
  bst_ok (bst_data self) -> run_ops ops self = (r, self') ->
  bst_ok (bst_data self').
Proof.
  induction ops as [|o ops IH]; intros self r self' Hok H.
  - inversion H; subst. exact Hok.
  - unfold run_ops in H. rewrite for_each_cons in H.
    destruct (run_op o self) as [[u|e] s1] eqn:Ho.
    + eapply IH; [|exact H]. destruct o as [k|k]; simpl in Ho.
      * rewrite RangeIndex_add_spec in Ho. inversion Ho; subst; simpl.
        now apply BST_insert_ok.
      * rewrite RangeIndex_remove_spec in Ho.
        destruct (BSTree_remove k (bst_data self)) as [[b|e] t] eqn:Hr;
          [|discriminate].
        inversion Ho; subst; simpl.
        unfold BSTree_remove in Hr.
        destruct (remove_locate (bst_data self) k) as [nk|] eqn:El;
          [|discriminate].
        rewrite (remove_locate_stops _ _ El) in Hr.
        destruct (remove_from (bst_data self) k) as [t'|] eqn:Ef;
          [|discriminate].
        inversion Hr; subst.
        pose proof (remove_locate_found _ _ El) as Hp.
        destruct (remove_from_spec Hok Hp) as (t2 & Ht2 & Hok2 & _).
        congruence.
    + inversion H; subst.
      destruct o as [k|k]; simpl in Ho.
      * rewrite RangeIndex_add_spec in Ho. discriminate.
      * rewrite RangeIndex_remove_spec in Ho.
        unfold BSTree_remove in Ho.
        destruct (remove_locate (bst_data self) k) as [nk|];
          [|inversion Ho; subst; exact Hok].
        destruct (kwp_ne nk k); [discriminate|].
        destruct (remove_from (bst_data self) k);
          [discriminate|inversion Ho; subst; exact Hok].
Qed.




(** Removing a key the tree does not store raises AttributeError and
    leaves the index as it was; [BSTree.remove] never returns False. *)
Lemma RangeIndex_remove_absent k self :
  ~ present k (bst_data self) ->
  RangeIndex_remove k self = (Raise AttributeError, self).
Proof.
  intros H. rewrite RangeIndex_remove_spec, BSTree_remove_absent by exact H.
  now rewrite RangeIndex_eta.
Qed.

(** C5, the failing runs: removing a key from the empty index, or a key
    other than the one stored, ends in AttributeError (the dereference of
    [None] on line 249), not in the False of case 1. *)
Theorem RangeIndex_remove_absent_AttributeError :
  BSTree_remove kH NoNode = (Raise AttributeError, NoNode) /\
  RangeIndex_remove kH RangeIndex_init = (Raise AttributeError, RangeIndex_init) /\
  let self := snd (RangeIndex_add kH2 RangeIndex_init) in
  RangeIndex_remove kH self = (Raise AttributeError, self).
Proof. cbn. repeat split. Qed.

(* ================================================================== *)
(** ** The sweep, one event at a time *)

Lemma process_event_add c e n v :
  ev_type e = add ->
  process_event c e n v
  = (Ok n,
     mkCrossVerifier (events v)
       (mkRangeIndex (data (index v) ++ [kwp_of (ev_wire e)])
                     (snd (BST_insert (bst_data (index v)) (kwp_of (ev_wire e)))))
       (result_set v) (performed v)).
Proof.
  intros He. unfold process_event. rewrite He.
  unfold bind, on_index, ret. rewrite RangeIndex_add_spec. reflexivity.
Qed.

Lemma process_event_delete c e n v :
  ev_type e = delete ->
  process_event c e n v
  = match BSTree_remove (kwp_of (ev_wire e)) (bst_data (index v)) with
    | (Ok _, t) =>
        (Ok n, mkCrossVerifier (events v) (mkRangeIndex (data (index v)) t)
                               (result_set v) (performed v))
    | (Raise x, t) =>
        (Raise x, mkCrossVerifier (events v) (mkRangeIndex (data (index v)) t)
                                  (result_set v) (performed v))
    end.
Proof.
  intros He. unfold process_event. rewrite He.
  unfold bind, on_index, ret. rewrite RangeIndex_remove_spec.
  unfold kwp_of.
  destruct (BSTree_remove (KeyWirePair (y1 (ev_wire e)) (ev_wire e))
                          (bst_data (index v))) as [[b|x] t]; reflexivity.
Qed.

Lemma collect_cross_wires_state {S} w kwps : forall acc (s : S),
  snd (collect_cross_wires w kwps acc s) = s.
Proof.
  induction kwps as [|k kwps IH]; intros acc s; simpl; [reflexivity|].
  destruct (wire k); [apply IH|reflexivity].
Qed.

Lemma collect_cross_wires_ok {S} w kwps : forall acc (s : S),
  Forall (fun k => wire k <> None) kwps ->
  collect_cross_wires w kwps acc s = (Ok (acc ++ cross_list w kwps), s).
Proof.
  induction kwps as [|k kwps IH]; intros acc s H; simpl.
  - now rewrite app_nil_r.
  - inversion H as [|? ? Hk Hrest]; subst.
    destruct (wire k) as [h|]; [|congruence].
    rewrite IH by assumption.
    destruct (intersects w h); simpl; [now rewrite <- app_assoc|reflexivity].
Qed.

Lemma record_all_crossings w cws : forall v,
  for_each cws (fun cross_wire => record_crossing w cross_wire) v
  = (Ok tt,
     mkCrossVerifier (events v) (index v)
       (mkResultSet (crossings (result_set v)
                     ++ map pair_names (map (pair w) cws)))
       (performed v)).
Proof.
  induction cws as [|h cws IH]; intros v.
  - simpl. rewrite app_nil_r. now destruct v as [? ? []].
  - rewrite for_each_cons. unfold record_crossing at 1. rewrite IH. simpl.
    now rewrite <- app_assoc.
Qed.

Lemma process_event_query c e n v :
  ev_type e = query ->
  Forall (fun k => wire k <> None) (data (index v)) ->
  process_event c e n v
  = let cws := cross_list (ev_wire e) (query_range (ev_wire e) (data (index v))) in
    if c then (Ok (n + length cws)%nat, v)
    else (Ok n,
          mkCrossVerifier (events v) (index v)
            (mkResultSet (crossings (result_set v)
                          ++ map pair_names (map (pair (ev_wire e)) cws)))
            (performed v)).
Proof.
  intros He Hw. unfold process_event. rewrite He.
  unfold bind at 1. unfold get. unfold bind at 1.
  unfold RangeIndex_list. fold (query_range (ev_wire e) (data (index v))).
  rewrite collect_cross_wires_ok.
  2:{ unfold query_range. rewrite Forall_forall in *. intros k Hk.
      apply filter_In in Hk. apply Hw, Hk. }
  simpl. destruct c; [reflexivity|].
  unfold bind. rewrite record_all_crossings. reflexivity.
Qed.

(** No event touches the event list or the [performed] flag, whether it
    raises or not. *)
Lemma process_event_frame c e n v r v' :
  process_event c e n v = (r, v') ->
  events v' = events v /\ performed v' = performed v.
Proof.
  destruct (ev_type e) eqn:He.
  - rewrite process_event_add by exact He. intros H; inversion H; auto.
  - rewrite process_event_delete by exact He.
    destruct (BSTree_remove _ _) as [[b|x] t]; intros H; inversion H; auto.
  - unfold process_event. rewrite He. unfold bind, get.
    match goal with |- context [collect_cross_wires ?w ?l ?a v] =>
      pose proof (collect_cross_wires_state w l a v) as Hs;
      destruct (collect_cross_wires w l a v) as [[cws|x] s] end;
      simpl in Hs; subst s.
    + destruct c.
      * intros H; inversion H; auto.
      * rewrite record_all_crossings. intros H; inversion H; auto.
    + intros H; inversion H; auto.
Qed.

Lemma sweep_frame c evs : forall n v,
  events (snd (sweep c evs n v)) = events v /\
  performed (snd (sweep c evs n v)) = performed v.
Proof.
  induction evs as [|e evs IH]; intros n v; simpl; [auto|].
  unfold bind.
  destruct (process_event c e n v) as [[r|x] v1] eqn:E;
    destruct (process_event_frame _ _ _ _ E) as (He & Hp).
  - destruct (IH r v1) as (He' & Hp'). split; congruence.
  - auto.
Qed.

(* ================================================================== *)
(** ** Sorting the events *)

Ltac ev_cmp := unfold event_lt in *; bool_lia.

Lemma event_lt_irrefl a : event_lt a a = false.
Proof. ev_cmp. Qed.

Lemma event_nlt_trans a b c :
  event_lt b a = false -> event_lt c b = false -> event_lt c a = false.
Proof. ev_cmp. Qed.

Lemma event_lt_nlt a b : event_lt a b = true -> event_lt b a = false.
Proof. ev_cmp. Qed.

Lemma insert_event_perm e l : Permutation (insert_event e l) (e :: l).
Proof.
  induction l as [|h t IH]; simpl; [reflexivity|].
  destruct (event_lt h e); [|reflexivity].
  rewrite IH. apply perm_swap.
Qed.

Lemma sort_events_perm l : Permutation (sort_events l) l.
Proof.
  induction l as [|e l IH]; simpl; [reflexivity|].
  rewrite insert_event_perm. now constructor.
Qed.

Lemma insert_event_sorted e l :
  events_sorted l -> events_sorted (insert_event e l).
Proof.
  unfold events_sorted.
  induction 1 as [|h t Hs IH Hh]; simpl.
  - constructor; constructor.
  - destruct (event_lt h e) eqn:E.
    + constructor; [exact IH|].
      eapply Permutation_Forall; [symmetry; apply insert_event_perm|].
      constructor; [now apply event_lt_nlt|exact Hh].
    + constructor; [constructor; assumption|].
      constructor; [exact E|].
      rewrite Forall_forall in *. intros b Hb.
      eapply event_nlt_trans; [exact E|apply Hh, Hb].
Qed.

Lemma sort_events_sorted l : events_sorted (sort_events l).
Proof.
  induction l as [|e l IH]; simpl; [constructor|].
  now apply insert_event_sorted.
Qed.

(** In a sorted list a strictly smaller event stands before a larger one. *)
Lemma sorted_precedes evs : forall d a b r,
  events_sorted evs -> evs = d ++ b :: r -> In a evs ->
  event_lt a b = true -> In a d.
Proof.
  intros d a b r Hs -> Ha Hlt.
  apply in_app_or in Ha. destruct Ha as [Ha|[Ha|Ha]]; [exact Ha| |].
  - subst a. rewrite event_lt_irrefl in Hlt. discriminate.
  - unfold events_sorted in Hs. induction d as [|x d IH]; simpl in Hs.
    + inversion Hs as [|? ? _ Hb]; subst.
      rewrite Forall_forall in Hb. rewrite (Hb a Ha) in Hlt. discriminate.
    + inversion Hs; subst. right. auto.
Qed.

Lemma add_before_delete w :
  x1 w <= x2 w -> event_lt (add_event w) (delete_event w) = true.
Proof. intros H. unfold add_event, delete_event, event_lt. simpl. bool_lia. Qed.

Lemma add_before_query h v :
  x1 h <= x1 v -> event_lt (add_event h) (query_event v) = true.
Proof. intros H. unfold add_event, query_event, event_lt. simpl. bool_lia. Qed.

(* ================================================================== *)
(** ** The sweep over a sorted event list *)

Lemma kwp_of_eq_id w w' :
  kwp_eq (kwp_of w') (kwp_of w) = true -> object_id w' = object_id w.
Proof. unfold kwp_of, KeyWirePair, kwp_eq. simpl. bool_lia. Qed.


Lemma index_inv_add done i w :
  index_inv done i ->
  index_inv (done ++ [add_event w])
            (mkRangeIndex (data i ++ [kwp_of w])
                          (snd (BST_insert (bst_data i) (kwp_of w)))).
Proof.
  intros (Hok & Hact & Hw). split; [|split]; simpl.
  - now apply BST_insert_ok.
  - intros w' Hin Hnd. apply in_app_or in Hin.
    destruct Hin as [Hin|[Hin|[]]].
    + destruct (Hact w' Hin) as (x & Hx & Hk).
      { intros H. apply Hnd. apply in_or_app. now left. }
      exists x. split; [now apply BST_insert_keeps|exact Hk].
    + assert (w = w') by (apply (f_equal ev_wire) in Hin; exact Hin).
      subst w'. apply BST_insert_present.
  - apply Forall_app. split; [exact Hw|].
    constructor; [discriminate|constructor].
Qed.

Lemma index_inv_query done i w :
  index_inv done i -> index_inv (done ++ [query_event w]) i.
Proof.
  intros (Hok & Hact & Hw). split; [exact Hok|split; [|exact Hw]].
  intros w' Hin Hnd. apply in_app_or in Hin.
  destruct Hin as [Hin|[Hin|[]]]; [|discriminate].
  apply Hact; [exact Hin|].
  intros H. apply Hnd. apply in_or_app. now left.
Qed.

(** At a delete event of a sorted, well-formed event list the key is in
    the tree, so the removal returns; the invariant carries on. *)
Lemma index_inv_delete done rest i w :
  events_ok (done ++ delete_event w :: rest) ->
  events_sorted (done ++ delete_event w :: rest) ->
  index_inv done i ->
  exists t,
    BSTree_remove (kwp_of w) (bst_data i) = (Ok true, t) /\
    index_inv (done ++ [delete_event w]) (mkRangeIndex (data i) t).
Proof.
  intros (Hnd & Hform & Hid & Hadd) Hs (Hok & Hact & Hw).
  set (e := delete_event w) in *.
  assert (He : In e (done ++ e :: rest)) by (apply in_or_app; simpl; auto).
  assert (Hpre : In (add_event w) done).
  { eapply sorted_precedes; [exact Hs|reflexivity|now apply Hadd|].
    apply add_before_delete. apply (proj2 (Hform e He)). }
  assert (Hfresh : ~ In e done).
  { intros H. apply NoDup_remove_2 in Hnd. apply Hnd.
    apply in_or_app. now left. }
  destruct (@BSTree_remove_present (kwp_of w) (bst_data i) Hok)
    as (t & Hrem & Hok' & _ & Hkeep); [now apply Hact|].
  exists t. split; [exact Hrem|].
  split; [exact Hok'|split; [|exact Hw]]. simpl.
  intros w' Hin Hnot. apply in_app_or in Hin.
  destruct Hin as [Hin|[Hin|[]]]; [|discriminate].
  destruct (Hact w' Hin) as (x & Hx & Hk).
  { intros H. apply Hnot. apply in_or_app. now left. }
  exists x. split; [|exact Hk]. apply Hkeep; [exact Hx|].
  destruct (kwp_eq x (kwp_of w)) eqn:E; [exfalso|reflexivity].
  assert (Hsame : kwp_eq (kwp_of w') (kwp_of w) = true)
    by (clear - Hk E; kwp_cmp).
  apply kwp_of_eq_id in Hsame.
  assert (Hw' : w' = w).
  { apply (Hid (add_event w') e); [apply in_or_app; now left|exact He|].
    exact Hsame. }
  subst w'. apply Hnot. apply in_or_app. right. now left.
Qed.

Lemma app_cons_assoc {A} (d : list A) e r : d ++ e :: r = (d ++ [e]) ++ r.
Proof. now rewrite <- app_assoc. Qed.

(** The sweep never raises on a sorted, well-formed event list, and its
    outcome is the one [sweep_pairs] describes. *)
Lemma sweep_run c rest : forall done n v,
  events_ok (done ++ rest) ->
  events_sorted (done ++ rest) ->
  index_inv done (index v) ->
  exists n' v',
    sweep c rest n v = (Ok n', v') /\
    index_inv (done ++ rest) (index v') /\
    data (index v') = data (index v) ++ added_kwps rest /\
    if c then
      n' = (n + length (sweep_pairs rest (data (index v))))%nat /\
      result_set v' = result_set v
    else
      n' = n /\
      crossings (result_set v')
      = crossings (result_set v)
        ++ map pair_names (sweep_pairs rest (data (index v))).
Proof.
  induction rest as [|e rest IH]; intros done n v Hev Hs Hinv.
  - exists n, v. rewrite !app_nil_r. simpl. rewrite Nat.add_0_r.
    split; [reflexivity|]. split; [exact Hinv|]. split; [reflexivity|].
    destruct c; auto.
  - assert (He : In e (done ++ e :: rest)) by (apply in_or_app; simpl; auto).
    pose proof Hev as (_ & Hform & _).
    destruct (Hform e He) as (Hshape & _).
    rewrite app_cons_assoc in Hev, Hs.
    simpl sweep. unfold bind at 1.
    destruct Hshape as [Hshape|[Hshape|Hshape]].
    + (* add *)
      assert (Ht : ev_type e = add) by (rewrite Hshape; reflexivity).
      rewrite process_event_add by exact Ht.
      pose proof (@index_inv_add done (index v) (ev_wire e) Hinv) as Hinv'.
      rewrite <- Hshape in Hinv'.
      destruct (IH (done ++ [e]) n
                  (mkCrossVerifier (events v)
                     (mkRangeIndex (data (index v) ++ [kwp_of (ev_wire e)])
                        (snd (BST_insert (bst_data (index v))
                                         (kwp_of (ev_wire e)))))
                     (result_set v) (performed v))
                  Hev Hs Hinv')
        as (n' & v' & Hrun & Hi & Hd & Hres).
      exists n', v'. rewrite Hrun. rewrite app_cons_assoc.
      split; [reflexivity|]. split; [exact Hi|].
      simpl in Hd, Hres. simpl. rewrite Ht.
      split; [rewrite Hd; now rewrite <- app_assoc|exact Hres].
    + (* delete *)
      assert (Ht : ev_type e = delete) by (rewrite Hshape; reflexivity).
      rewrite process_event_delete by exact Ht.
      rewrite <- app_cons_assoc in Hev, Hs.
      rewrite Hshape in Hev, Hs.
      destruct (index_inv_delete _ _ Hev Hs Hinv) as (t & Hrem & Hinv').
      rewrite Hrem. rewrite <- Hshape in Hev, Hs, Hinv'.
      rewrite app_cons_assoc in Hev, Hs.
      destruct (IH (done ++ [e]) n
                  (mkCrossVerifier (events v)
                     (mkRangeIndex (data (index v)) t)
                     (result_set v) (performed v))
                  Hev Hs Hinv')
        as (n' & v' & Hrun & Hi & Hd & Hres).
      exists n', v'. rewrite Hrun. rewrite app_cons_assoc.
      split; [reflexivity|]. split; [exact Hi|].
      simpl in Hd, Hres. simpl. rewrite Ht. simpl. split; assumption.
    + (* query *)
      assert (Ht : ev_type e = query) by (rewrite Hshape; reflexivity).
      pose proof Hinv as (_ & _ & Hw).
      rewrite process_event_query by assumption.
      pose proof (@index_inv_query done (index v) (ev_wire e) Hinv) as Hinv'.
      rewrite <- Hshape in Hinv'.
      cbv zeta. destruct c.
      * destruct (IH (done ++ [e])
                    (n + length (cross_list (ev_wire e)
                                   (query_range (ev_wire e) (data (index v)))))%nat
                    v Hev Hs Hinv')
          as (n' & v' & Hrun & Hi & Hd & Hres).
        exists n', v'. rewrite Hrun. rewrite app_cons_assoc.
        split; [reflexivity|]. split; [exact Hi|].
        simpl. rewrite Ht. simpl. split; [exact Hd|].
        destruct Hres as (Hn & Hrs). split; [|exact Hrs].
        rewrite Hn, length_app, length_map. lia.
      * destruct (IH (done ++ [e]) n
                    (mkCrossVerifier (events v) (index v)
                       (mkResultSet
                          (crossings (result_set v)
                           ++ map pair_names
                                (map (pair (ev_wire e))
                                   (cross_list (ev_wire e)
                                      (query_range (ev_wire e)
                                                   (data (index v)))))))
                       (performed v))
                    Hev Hs Hinv')
          as (n' & v' & Hrun & Hi & Hd & Hres).
        exists n', v'. rewrite Hrun. rewrite app_cons_assoc.
        split; [reflexivity|]. split; [exact Hi|].
        simpl in Hd, Hres. simpl. rewrite Ht. simpl. split; [exact Hd|].
        destruct Hres as (Hn & Hrs). split; [exact Hn|].
        rewrite Hrs, map_app, <- app_assoc. reflexivity.
Qed.

(* ================================================================== *)
(** ** The events of a layer *)

Lemma NoDup_map_injective {A B} (f : A -> B) l :
  NoDup (map f l) -> forall a b, In a l -> In b l -> f a = f b -> a = b.
Proof.
  induction l as [|x l IH]; simpl; intros Hnd a b Ha Hb Hf; [tauto|].
  inversion Hnd as [|? ? Hx Hl]; subst.
  destruct Ha as [Ha|Ha]; destruct Hb as [Hb|Hb]; subst; auto.
  - exfalso. apply Hx. rewrite Hf. now apply in_map.
  - exfalso. apply Hx. rewrite <- Hf. now apply in_map.
Qed.

Lemma wire_events_shape w e :
  In e (wire_events w) ->
  ev_wire e = w /\ ev_id e = object_id w /\
  ((e = add_event w /\ is_horizontal w = true) \/
   (e = delete_event w /\ is_horizontal w = true) \/
   (e = query_event w /\ is_horizontal w = false)).
Proof.
  unfold wire_events. destruct (is_horizontal w); simpl.
  - intros [H|[H|[]]]; subst e; simpl; auto 6.
  - intros [H|[]]; subst e; simpl; auto 6.
Qed.

Lemma wire_events_NoDup w : NoDup (wire_events w).
Proof.
  unfold wire_events. destruct (is_horizontal w).
  - constructor; [|constructor; [simpl; tauto|constructor]].
    simpl. intros [H|[]]. discriminate.
  - constructor; [simpl; tauto|constructor].
Qed.

Lemma layer_events_NoDup ws :
  NoDup (map object_id ws) -> NoDup (flat_map wire_events ws).
Proof.
  induction ws as [|w ws IH]; simpl; intros Hnd; [constructor|].
  inversion Hnd as [|? ? Hw Hws]; subst.
  apply NoDup_app; [apply wire_events_NoDup|now apply IH|].
  intros e He Hin. apply in_flat_map in Hin.
  destruct Hin as (w' & Hw' & He').
  apply wire_events_shape in He, He'.
  destruct He as (He & _), He' as (He' & _).
  apply Hw. rewrite <- He, He'. now apply in_map.
Qed.

Lemma layer_events_ok ws :
  Forall wire_ok ws -> NoDup (map object_id ws) ->
  events_ok (flat_map wire_events ws).
Proof.
  intros Hok Hnd. rewrite Forall_forall in Hok.
  split; [now apply layer_events_NoDup|]. split; [|split].
  - intros e He. apply in_flat_map in He. destruct He as (w & Hw & He).
    apply wire_events_shape in He. destruct He as (Hwe & _ & Hshape).
    rewrite Hwe. split; [tauto|apply (Hok w Hw)].
  - intros e e' He He' Hid.
    apply in_flat_map in He, He'.
    destruct He as (w & Hw & He), He' as (w' & Hw' & He').
    apply wire_events_shape in He, He'.
    destruct He as (He1 & He2 & _), He' as (He1' & He2' & _).
    rewrite He1, He1'.
    apply (NoDup_map_injective _ _ Hnd); auto. congruence.
  - intros w Hd. apply in_flat_map in Hd. destruct Hd as (w0 & Hw0 & Hd).
    apply in_flat_map. exists w0. split; [exact Hw0|].
    pose proof (wire_events_shape _ _ Hd) as (Hw & _ & _). simpl in Hw.
    subst w0. unfold wire_events in *.
    destruct (is_horizontal w); [simpl; auto|].
    destruct Hd as [Hd|[]]. discriminate.
Qed.

Lemma events_ok_perm evs evs' :
  Permutation evs evs' -> events_ok evs -> events_ok evs'.
Proof.
  intros Hp (Hnd & Hform & Hid & Hadd).
  assert (Hin : forall e, In e evs' -> In e evs)
    by (intros e; apply Permutation_in; now symmetry).
  split; [eapply Permutation_NoDup; eassumption|].
  split; [|split].
  - intros e He. auto.
  - intros e e' He He'. auto.
  - intros w Hw. eapply Permutation_in; [exact Hp|]. auto.
Qed.

(** The sorted event list of a well-formed layer. *)
Lemma sorted_layer_events layer :
  layer_wf layer ->
  events_ok (sort_events (flat_map wire_events (layer_values layer))) /\
  events_sorted (sort_events (flat_map wire_events (layer_values layer))).
Proof.
  intros (Hok & Hnd). split; [|apply sort_events_sorted].
  eapply events_ok_perm; [symmetry; apply sort_events_perm|].
  now apply layer_events_ok.
Qed.

Lemma index_inv_init : index_inv [] RangeIndex_init.
Proof.
  split; [exact I|]. split; [intros w []|constructor].
Qed.

Lemma CrossVerifier_init_ok layer :
  layer <> [] ->
  CrossVerifier_init layer
  = Ok (mkCrossVerifier
          (sort_events (flat_map wire_events (layer_values layer)))
          RangeIndex_init (mkResultSet []) false).
Proof.
  intros H. unfold CrossVerifier_init, events_from_layer.
  destruct layer as [|p layer]; [congruence|]. reflexivity.
Qed.

(** Both entry points on a verifier that has not been used, whose events
    are sorted and well formed, and whose index is still empty. *)
Lemma count_crossings_run v :
  performed v = false -> index v = RangeIndex_init ->
  events_ok (events v) -> events_sorted (events v) ->
  exists v',
    count_crossings v
    = (Ok (PyInt (length (sweep_pairs (events v) []))), v') /\
    performed v' = true.
Proof.
  intros Hp Hi Hev Hs.
  unfold count_crossings, bind at 1, get. rewrite Hp.
  unfold bind at 1, set_performed, compute_crossings, bind at 1, get.
  cbn [events]. unfold bind at 1.
  destruct (@sweep_run true (events v) [] 0%nat
              (mkCrossVerifier (events v) (index v) (result_set v) true))
    as (n' & v' & Hrun & _ & _ & Hn & _); auto.
  { cbn [index]. rewrite Hi. apply index_inv_init. }
  rewrite Hrun. cbn [index] in Hn. rewrite Hi in Hn. simpl in Hn. subst n'.
  exists v'. split; [reflexivity|].
  pose proof (sweep_frame true (events v) 0
                (mkCrossVerifier (events v) (index v) (result_set v) true))
    as (_ & Hperf).
  rewrite Hrun in Hperf. exact Hperf.
Qed.

Lemma wire_crossings_run v :
  performed v = false -> index v = RangeIndex_init ->
  events_ok (events v) -> events_sorted (events v) ->
  exists v',
    wire_crossings v = (Ok (PyResultSet (result_set v')), v') /\
    performed v' = true /\
    crossings (result_set v')
    = crossings (result_set v) ++ map pair_names (sweep_pairs (events v) []).
Proof.
  intros Hp Hi Hev Hs.
  unfold wire_crossings, bind at 1, get. rewrite Hp.
  unfold bind at 1, set_performed, compute_crossings, bind at 1, get.
  cbn [events]. unfold bind at 1.
  destruct (@sweep_run false (events v) [] 0%nat
              (mkCrossVerifier (events v) (index v) (result_set v) true))
    as (n' & v' & Hrun & _ & _ & _ & Hrs); auto.
  { cbn [index]. rewrite Hi. apply index_inv_init. }
  rewrite Hrun. cbn [index result_set] in Hrs. rewrite Hi in Hrs.
  exists v'. split; [reflexivity|]. split; [|exact Hrs].
  pose proof (sweep_frame false (events v) 0
                (mkCrossVerifier (events v) (index v) (result_set v) true))
    as (_ & Hperf).
  rewrite Hrun in Hperf. exact Hperf.
Qed.

(* ================================================================== *)
(** ** What the sweep reports *)

Lemma added_kwps_app d r : added_kwps (d ++ r) = added_kwps d ++ added_kwps r.
Proof. unfold added_kwps. apply flat_map_app. Qed.

Lemma sweep_pairs_app d : forall r dat,
  sweep_pairs (d ++ r) dat
  = sweep_pairs d dat ++ sweep_pairs r (dat ++ added_kwps d).
Proof.
  induction d as [|e d IH]; intros r dat; simpl.
  - now rewrite app_nil_r.
  - destruct (ev_type e); rewrite IH; simpl.
    + now rewrite <- app_assoc.
    + reflexivity.
    + now rewrite <- app_assoc.
Qed.

Lemma cross_list_In w kwps h :
  In h (cross_list w kwps) <->
  exists k, In k kwps /\ wire k = Some h /\ intersects w h = true.
Proof.
  unfold cross_list. rewrite in_flat_map. split.
  - intros (k & Hk & Hh). exists k. split; [exact Hk|].
    destruct (wire k) as [h'|]; [|destruct Hh].
    destruct (intersects w h') eqn:E; [|destruct Hh].
    destruct Hh as [Hh|[]]. subst h'. auto.
  - intros (k & Hk & Hw & Hi). exists k. split; [exact Hk|].
    rewrite Hw, Hi. now left.
Qed.

Lemma added_kwps_In k evs :
  In k (added_kwps evs) <->
  exists e, In e evs /\ ev_type e = add /\ k = kwp_of (ev_wire e).
Proof.
  unfold added_kwps. rewrite in_flat_map. split.
  - intros (e & He & Hk). exists e. split; [exact He|].
    destruct (ev_type e); simpl in Hk; try tauto.
    destruct Hk as [Hk|[]]. auto.
  - intros (e & He & Ht & Hk). exists e. split; [exact He|].
    rewrite Ht. simpl. auto.
Qed.

(** Every reported pair comes from a query event and a key that was in the
    index, inside the queried range, whose wire intersects the query wire. *)
Lemma sweep_pairs_sound evs : forall dat p,
  In p (sweep_pairs evs dat) ->
  exists e k,
    In e evs /\ ev_type e = query /\ fst p = ev_wire e /\
    In k (dat ++ added_kwps evs) /\ wire k = Some (snd p) /\
    intersects (fst p) (snd p) = true.
Proof.
  induction evs as [|e evs IH]; intros dat p Hp; simpl in Hp; [tauto|].
  destruct (ev_type e) eqn:Ht.
  - destruct (IH _ _ Hp) as (e' & k & He' & Hq & Hf & Hk & Hw & Hi).
    exists e', k. repeat split; auto; [now right|].
    change (e :: evs) with ([e] ++ evs). rewrite added_kwps_app.
    unfold added_kwps at 1. simpl. rewrite Ht. simpl.
    now rewrite <- app_assoc in Hk.
  - destruct (IH _ _ Hp) as (e' & k & He' & Hq & Hf & Hk & Hw & Hi).
    exists e', k. repeat split; auto; [now right|].
    change (e :: evs) with ([e] ++ evs). rewrite added_kwps_app.
    unfold added_kwps at 1. simpl. rewrite Ht. exact Hk.
  - apply in_app_or in Hp. destruct Hp as [Hp|Hp].
    + apply in_map_iff in Hp. destruct Hp as (h & Hph & Hh). subst p.
      apply cross_list_In in Hh. destruct Hh as (k & Hk & Hw & Hi).
      exists e, k. simpl. repeat split; auto.
      unfold query_range in Hk. apply filter_In in Hk.
      apply in_or_app. left. apply Hk.
    + destruct (IH _ _ Hp) as (e' & k & He' & Hq & Hf & Hk & Hw & Hi).
      exists e', k. repeat split; auto; [now right|].
      change (e :: evs) with ([e] ++ evs). rewrite added_kwps_app.
      unfold added_kwps at 1. simpl. rewrite Ht. exact Hk.
Qed.

(** A wire added before a query, lying in the queried range and
    intersecting the query wire, is reported. *)
Lemma sweep_pairs_complete d r dat V H :
  In (add_event H) d ->
  in_range (KeyWirePairL (y1 V)) (KeyWirePairH (y2 V)) (kwp_of H) = true ->
  intersects V H = true ->
  In (V, H) (sweep_pairs (d ++ query_event V :: r) dat).
Proof.
  intros Hadd Hrange Hint.
  rewrite sweep_pairs_app. apply in_or_app. right. simpl.
  apply in_or_app. left. apply in_map.
  apply cross_list_In. exists (kwp_of H). split; [|split; auto].
  unfold query_range. apply filter_In. split; [|exact Hrange].
  apply in_or_app. right. apply added_kwps_In.
  exists (add_event H). auto.
Qed.

Lemma in_sorted_layer_events layer e :
  In e (sort_events (flat_map wire_events (layer_values layer))) <->
  exists w, In w (layer_values layer) /\ In e (wire_events w).
Proof.
  rewrite <- in_flat_map. split; apply Permutation_in;
    [|symmetry]; apply sort_events_perm.
Qed.

(** Closed-interval containment makes [intersects] true, in both
    directions, and puts the key of the horizontal wire in the range the
    vertical wire queries. *)
Lemma intersects_closed V H :
  is_horizontal H = true -> is_horizontal V = false ->
  y1 V <= y1 H <= y2 V -> x1 H <= x1 V <= x2 H ->
  intersects V H = true /\ intersects H V = true.
Proof.
  intros Hh Hv Hy Hx. unfold intersects. rewrite Hh, Hv. simpl.
  split; bool_lia.
Qed.

Lemma query_range_covers V H :
  y1 V <= y1 H <= y2 V ->
  -1000000000 <= object_id H <= 1000000000 ->
  in_range (KeyWirePairL (y1 V)) (KeyWirePairH (y2 V)) (kwp_of H) = true.
Proof.
  intros Hy Hid.
  unfold in_range, kwp_le, kwp_of, KeyWirePair, KeyWirePairL, KeyWirePairH.
  simpl. bool_lia.
Qed.

(* ================================================================== *)
(** ** The verifier on a layer *)

(** Layers built by [add_wire] are well formed, and their object ids are
    the values the counter went through. *)
Lemma add_wire_wf layer nm ax ay bx by_ lo next layer' :
  layer_wf layer ->
  Forall (fun w => lo <= object_id w < next) (layer_values layer) ->
  lo <= next ->
  fst (add_wire layer nm ax ay bx by_ next) = Ok layer' ->
  snd (add_wire layer nm ax ay bx by_ next) = next + 1 /\
  layer_wf layer' /\
  Forall (fun w => lo <= object_id w < next + 1) (layer_values layer').
Proof.
  intros (Hok & Hnd) Hlt Hlo. unfold add_wire.
  destruct (name_in nm layer); [discriminate|].
  unfold bind.
  pose proof (Wire_init_ok nm ax ay bx by_ next) as Hw.
  pose proof (Wire_init_counter nm ax ay bx by_ next) as Hc.
  destruct (Wire_init nm ax ay bx by_ next) as [[w|e] next'];
    [|discriminate].
  simpl in Hc. subst next'.
  simpl. intros H. inversion H; subst layer'. clear H.
  destruct (Hw w eq_refl) as (_ & Hid & Hx1 & Hx2 & Hy1 & Hy2 & Hor).
  unfold layer_wf, layer_values in *. rewrite !map_app. simpl.
  split; [reflexivity|]. split; [split|].
  - apply Forall_app. split; [exact Hok|]. constructor; [|constructor].
    unfold wire_ok. rewrite Hx1, Hx2, Hy1, Hy2. repeat split; try lia.
    exact Hor.
  - apply NoDup_app; [exact Hnd|constructor; [simpl; tauto|constructor]|].
    intros a Ha [Hb|[]]. apply in_map_iff in Ha.
    destruct Ha as (w' & Hw' & Hin). rewrite Forall_forall in Hlt.
    specialize (Hlt w' Hin). lia.
  - apply Forall_app. split.
    + eapply Forall_impl; [|exact Hlt]. simpl. intros; lia.
    + constructor; [lia|constructor].
Qed.

Lemma add_wires_wf records : forall layer lo next layer',
  layer_wf layer ->
  Forall (fun w => lo <= object_id w < next) (layer_values layer) ->
  lo <= next ->
  fst (add_wires layer records next) = Ok layer' ->
  layer_wf layer' /\
  Forall (fun w => lo <= object_id w < snd (add_wires layer records next))
         (layer_values layer').
Proof.
  induction records as [|[[nm [ax ay]] [bx by_]] rest IH];
    intros layer lo next layer' Hwf Hids Hlo; simpl.
  - intros H. inversion H; subst. auto.
  - unfold bind.
    pose proof (@add_wire_wf layer nm ax ay bx by_ lo next) as Hstep.
    destruct (add_wire layer nm ax ay bx by_ next) as [[l1|e] n1];
      [|discriminate].
    destruct (Hstep l1 Hwf Hids Hlo eq_refl) as (Hn & Hwf1 & Hids1).
    simpl in Hn. subst n1. intros H.
    apply (IH l1 lo (next + 1) layer' Hwf1 Hids1); [lia|exact H].
Qed.

(** Every layer read from wire records, starting from the empty layer,
    is well formed. *)
Lemma built_layer_wf records next layer :
  fst (add_wires [] records next) = Ok layer -> layer_wf layer.
Proof.
  intros H.
  apply (@add_wires_wf records [] next next layer); auto; try lia.
  - split; constructor.
Qed.

Lemma verifier_run layer :
  layer_wf layer -> layer <> [] ->
  exists v v1 v2,
    CrossVerifier_init layer = Ok v /\
    events v = sort_events (flat_map wire_events (layer_values layer)) /\
    count_crossings v
    = (Ok (PyInt (length (sweep_pairs (events v) []))), v1) /\
    wire_crossings v = (Ok (PyResultSet (result_set v2)), v2) /\
    crossings (result_set v2) = map pair_names (sweep_pairs (events v) []).
Proof.
  intros Hwf Hne.
  destruct (sorted_layer_events Hwf) as (Hev & Hs).
  set (v := mkCrossVerifier
              (sort_events (flat_map wire_events (layer_values layer)))
              RangeIndex_init (mkResultSet []) false).
  destruct (@count_crossings_run v) as (v1 & Hc & _); auto.
  destruct (@wire_crossings_run v) as (v2 & Hl & _ & Hrs); auto.
  exists v, v1, v2. rewrite CrossVerifier_init_ok by exact Hne.
  repeat split; auto.
Qed.

Lemma layer4_wf : layer_wf layer4.
Proof.
  split.
  - repeat constructor; simpl; lia.
  - repeat constructor; simpl; intuition discriminate.
Defined.

Lemma touch_layer_wf : layer_wf touch_layer.
Proof.
  split.
  - repeat constructor; simpl; lia.
  - repeat constructor; simpl; intuition discriminate.
Defined.

(** C2: on every well-formed, non-empty layer a fresh verifier's
    [count_crossings] returns an integer, [wire_crossings] on another
    fresh verifier returns a result set, and the integer is the number of
    crossings in that set. *)
Theorem count_crossings_eq_len_wire_crossings layer :
  layer_wf layer -> layer <> [] ->
  exists v n rs v1 v2,
    CrossVerifier_init layer = Ok v /\
    count_crossings v = (Ok (PyInt n), v1) /\
    wire_crossings v = (Ok (PyResultSet rs), v2) /\
    n = length (crossings rs).
Proof.
  intros Hwf Hne.
  destruct (verifier_run Hwf Hne) as (v & v1 & v2 & Hi & _ & Hc & Hl & Hrs).
  exists v, (length (sweep_pairs (events v) [])), (result_set v2), v1, v2.
  repeat split; auto. now rewrite Hrs, length_map.
Qed.

Lemma count_crossings_eq_len_wire_crossings_witness :
  exists v n rs v1 v2,
    CrossVerifier_init layer4 = Ok v /\
    count_crossings v = (Ok (PyInt n), v1) /\
    wire_crossings v = (Ok (PyResultSet rs), v2) /\
    n = length (crossings rs).
Proof.
  apply (@count_crossings_eq_len_wire_crossings layer4).
  - exact layer4_wf.
  - discriminate.
Defined.

Lemma sweep_pairs_genuine layer p :
  layer_wf layer ->
  In p (sweep_pairs (sort_events (flat_map wire_events (layer_values layer))) []) ->
  genuine_crossing layer p.
Proof.
  intros (Hok & _) Hp. rewrite Forall_forall in Hok.
  destruct (sweep_pairs_sound _ _ _ Hp)
    as (e & k & He & Hq & Hf & Hk & Hw & Hi).
  simpl in Hk. apply added_kwps_In in Hk.
  destruct Hk as (e' & He' & Ha & Hk).
  apply in_sorted_layer_events in He, He'.
  destruct He as (V & HV & He), He' as (H & HH & He').
  apply wire_events_shape in He, He'.
  destruct He as (HeV & _ & Hshape), He' as (HeH & _ & Hshape').
  assert (HVh : is_horizontal V = false).
  { destruct Hshape as [(E & _)|[(E & _)|(_ & E)]]; [| |exact E];
      rewrite E in Hq; discriminate. }
  assert (HHh : is_horizontal H = true).
  { destruct Hshape' as [(_ & E)|[(_ & E)|(E & _)]]; [exact E|exact E|];
      rewrite E in Ha; discriminate. }
  assert (Hsnd : snd p = H).
  { rewrite Hk in Hw. unfold kwp_of, KeyWirePair in Hw. simpl in Hw.
    inversion Hw. congruence. }
  assert (Hfst : fst p = V) by congruence.
  unfold genuine_crossing. rewrite Hfst, Hsnd in *.
  repeat split; auto.
  destruct (Hok V HV) as (_ & _ & Hor). rewrite HVh in Hor. exact Hor.
Qed.

(** C10: on every well-formed, non-empty layer there is a list of pairs
    of wires of the layer, each a vertical and a horizontal wire that
    [intersects] accepts, such that [count_crossings] returns its length
    and [wire_crossings] records exactly the names of its pairs. *)
Theorem reported_crossings_genuine layer :
  layer_wf layer -> layer <> [] ->
  exists v v1 v2 rs pairs,
    CrossVerifier_init layer = Ok v /\
    count_crossings v = (Ok (PyInt (length pairs)), v1) /\
    wire_crossings v = (Ok (PyResultSet rs), v2) /\
    crossings rs = map pair_names pairs /\
    Forall (genuine_crossing layer) pairs.
Proof.
  intros Hwf Hne.
  destruct (verifier_run Hwf Hne) as (v & v1 & v2 & Hi & Hev & Hc & Hl & Hrs).
  exists v, v1, v2, (result_set v2), (sweep_pairs (events v) []).
  repeat split; auto.
  apply Forall_forall. intros p Hp. rewrite Hev in Hp.
  now apply sweep_pairs_genuine.
Qed.

Lemma reported_crossings_genuine_witness :
  exists v v1 v2 rs pairs,
    CrossVerifier_init layer4 = Ok v /\
    count_crossings v = (Ok (PyInt (length pairs)), v1) /\
    wire_crossings v = (Ok (PyResultSet rs), v2) /\
    crossings rs = map pair_names pairs /\
    Forall (genuine_crossing layer4) pairs.
Proof.
  apply (@reported_crossings_genuine layer4).
  - exact layer4_wf.
  - discriminate.
Defined.

(** Every crossing in the closed-interval sense is reported. *)
Lemma crossing_reported layer V H :
  layer_wf layer ->
  In V (layer_values layer) -> In H (layer_values layer) ->
  is_horizontal H = true -> is_horizontal V = false ->
  -1000000000 <= object_id H <= 1000000000 ->
  y1 V <= y1 H <= y2 V -> x1 H <= x1 V <= x2 H ->
  In (V, H)
     (sweep_pairs (sort_events (flat_map wire_events (layer_values layer))) []).
Proof.
  intros Hwf HV HH Hh Hv Hid Hy Hx.
  destruct (sorted_layer_events Hwf) as (_ & Hs).
  set (evs := sort_events (flat_map wire_events (layer_values layer))) in *.
  assert (Hq : In (query_event V) evs).
  { apply in_sorted_layer_events. exists V. split; [exact HV|].
    unfold wire_events. rewrite Hv. now left. }
  assert (Ha : In (add_event H) evs).
  { apply in_sorted_layer_events. exists H. split; [exact HH|].
    unfold wire_events. rewrite Hh. now left. }
  destruct (in_split _ _ Hq) as (d & r & Hsplit).
  rewrite Hsplit. apply sweep_pairs_complete.
  - eapply sorted_precedes; [exact Hs|exact Hsplit|exact Ha|].
    apply add_before_query. lia.
  - now apply query_range_covers.
  - exact (proj1 (@intersects_closed V H Hh Hv Hy Hx)).
Qed.

(** C3, counterexample: two layers that [add_wire] builds, each with a
    horizontal wire and a wire with x1 = x2 on its right end, the y ranges
    touching, in which nothing is reported.  In the first the upright
    wire is a point: it is horizontal as well, the sweep files it as
    horizontal and never queries for it.  In the second the wires are
    built with the id counter above 10^9: [intersects] accepts the pair,
    but the key of the horizontal wire lies above the upper query
    sentinel. *)
Lemma touching_endpoint_not_reported :
  (fst (add_wires [] point_records 0) = Ok point_layer /\
   In wP (layer_values point_layer) /\ In wA (layer_values point_layer) /\
   is_vertical wP = true /\ is_horizontal wA = true /\
   y1 wP <= y1 wA <= y2 wP /\ x1 wA <= x1 wP <= x2 wA /\ x1 wP = x2 wA /\
   verify point_layer
   = Some (Ok (PyInt 0), Ok (PyResultSet (mkResultSet [])))) /\
  (fst (add_wires [] far_records 1000000001) = Ok far_layer /\
   In wFV (layer_values far_layer) /\ In wFH (layer_values far_layer) /\
   is_vertical wFV = true /\ is_horizontal wFV = false /\
   is_horizontal wFH = true /\
   y1 wFV <= y1 wFH <= y2 wFV /\ x1 wFH <= x1 wFV <= x2 wFH /\
   x1 wFV = x2 wFH /\ y1 wFH = y2 wFV /\
   intersects wFV wFH = true /\
   verify far_layer
   = Some (Ok (PyInt 0), Ok (PyResultSet (mkResultSet [])))).
Proof.
  split.
  - split; [reflexivity|]. split; [simpl; auto|]. split; [simpl; auto|].
    split; [reflexivity|]. split; [reflexivity|].
    split; [simpl; lia|]. split; [simpl; lia|]. split; [reflexivity|].
    vm_compute. reflexivity.
  - split; [reflexivity|]. split; [simpl; auto|]. split; [simpl; auto|].
    split; [reflexivity|]. split; [reflexivity|]. split; [reflexivity|].
    split; [simpl; lia|]. split; [simpl; lia|]. split; [reflexivity|].
    split; [reflexivity|]. split; [reflexivity|].
    vm_compute. reflexivity.
Qed.

(** C3, as the code has it: a wire V that is not horizontal (so vertical,
    and not a point) and a horizontal wire H of a well-formed layer, with
    V's x at an end of H's x range and H's y within V's closed y range,
    are reported, provided the object id of H is within the +-10^9 of the
    query sentinels: [intersects] holds both ways, [wire_crossings] lists
    the pair of their names and [count_crossings] counts at least one
    crossing. *)
Theorem touching_endpoint_reported layer V H :
  layer_wf layer ->
  In V (layer_values layer) -> In H (layer_values layer) ->
  is_horizontal H = true -> is_horizontal V = false ->
  -1000000000 <= object_id H <= 1000000000 ->
  y1 V <= y1 H <= y2 V -> x1 H <= x1 V <= x2 H ->
  x1 V = x1 H \/ x1 V = x2 H ->
  intersects V H = true /\ intersects H V = true /\
  exists v n rs v1 v2,
    CrossVerifier_init layer = Ok v /\
    wire_crossings v = (Ok (PyResultSet rs), v2) /\
    In (sorted_names (name V) (name H)) (crossings rs) /\
    count_crossings v = (Ok (PyInt n), v1) /\ (1 <= n)%nat.
Proof.
  intros Hwf HV HH Hh Hv Hid Hy Hx _.
  destruct (@intersects_closed V H Hh Hv Hy Hx) as (Hi1 & Hi2).
  split; [exact Hi1|]. split; [exact Hi2|].
  assert (Hne : layer <> []) by (intros ->; destruct HV).
  destruct (verifier_run Hwf Hne) as (v & v1 & v2 & Hi & Hev & Hc & Hl & Hrs).
  pose proof (@crossing_reported layer V H Hwf HV HH Hh Hv Hid Hy Hx) as Hin.
  rewrite <- Hev in Hin.
  exists v, (length (sweep_pairs (events v) [])), (result_set v2), v1, v2.
  repeat split; auto.
  - rewrite Hrs. change (sorted_names (name V) (name H)) with (pair_names (V, H)).
    now apply in_map.
  - destruct (sweep_pairs (events v) []); [destruct Hin|simpl; lia].
Qed.

Lemma touching_endpoint_reported_witness :
  intersects wB wA = true /\ intersects wA wB = true /\
  exists v n rs v1 v2,
    CrossVerifier_init touch_layer = Ok v /\
    wire_crossings v = (Ok (PyResultSet rs), v2) /\
    In (sorted_names (name wB) (name wA)) (crossings rs) /\
    count_crossings v = (Ok (PyInt n), v1) /\ (1 <= n)%nat.
Proof.
  apply (@touching_endpoint_reported touch_layer wB wA).
  - exact touch_layer_wf.
  - simpl. auto.
  - simpl. auto.
  - reflexivity.
  - reflexivity.
  - simpl. lia.
  - simpl. lia.
  - simpl. lia.
  - simpl. right. reflexivity.
Defined.

(* ================================================================== *)
(** ** Single use *)

Lemma compute_crossings_frame c v :
  performed (snd (compute_crossings c v)) = performed v.
Proof.
  unfold compute_crossings, bind at 1, get. unfold bind at 1.
  pose proof (sweep_frame c (events v) 0 v) as (_ & Hp).
  destruct (sweep c (events v) 0 v) as [[n|x] v1]; simpl in Hp.
  - destruct c; simpl; [exact Hp|]. unfold bind, ret. simpl. exact Hp.
  - exact Hp.
Qed.

Lemma used_verifier_raises v :
  performed v = true ->
  count_crossings v = (Raise RuntimeError, v) /\
  wire_crossings v = (Raise RuntimeError, v).
Proof.
  intros H. unfold count_crossings, wire_crossings, bind, get.
  rewrite H. split; reflexivity.
Qed.

Lemma call_sets_performed (c : bool) v r v' :
  (if c then count_crossings v else wire_crossings v) = (Ok r, v') ->
  performed v' = true.
Proof.
  intros H.
  assert (Hentry :
    (if c then count_crossings v else wire_crossings v)
    = if performed v then (Raise RuntimeError, v)
      else compute_crossings c
             (mkCrossVerifier (events v) (index v) (result_set v) true)).
  { destruct c; unfold count_crossings, wire_crossings, bind, get,
      set_performed; destruct (performed v); reflexivity. }
  rewrite Hentry in H. destruct (performed v); [discriminate|].
  pose proof (compute_crossings_frame c
                (mkCrossVerifier (events v) (index v) (result_set v) true))
    as Hp.
  rewrite H in Hp. exact Hp.
Qed.

(** C8: once [count_crossings] or [wire_crossings] has returned a result,
    a further call to either raises, and returns nothing. *)
Theorem second_call_raises v r v' :
  count_crossings v = (Ok r, v') \/ wire_crossings v = (Ok r, v') ->
  count_crossings v' = (Raise RuntimeError, v') /\
  wire_crossings v' = (Raise RuntimeError, v').
Proof.
  intros [H|H]; apply used_verifier_raises.
  - exact (call_sets_performed true v H).
  - exact (call_sets_performed false v H).
Qed.

Lemma second_call_raises_witness :
  let v' := snd (count_crossings verifier4) in
  count_crossings v' = (Raise RuntimeError, v') /\
  wire_crossings v' = (Raise RuntimeError, v').
Proof.
  apply (@second_call_raises verifier4 (PyInt 3)
           (snd (count_crossings verifier4))).
  left. vm_compute. reflexivity.
Defined.

(* ================================================================== *)
(** ** The scenarios *)

Example demo_layer_built : demo_layer = (Ok layer4, 4).
Proof. reflexivity. Qed.

Example layer4_crossings :
  verify layer4
  = Some (Ok (PyInt 3),
          Ok (PyResultSet
                (mkResultSet [["H"; "V"]; ["H2"; "V"]; ["H"; "W"]]%string))).
Proof. vm_compute. reflexivity. Qed.

Example one_crossing :
  verify [("H", wH); ("V", wV)]%string
  = Some (Ok (PyInt 1), Ok (PyResultSet (mkResultSet [["H"; "V"]]%string))).
Proof. vm_compute. reflexivity. Qed.

Example parallel_no_crossing :
  verify parallel_layer
  = Some (Ok (PyInt 0), Ok (PyResultSet (mkResultSet []))).
Proof. vm_compute. reflexivity. Qed.

Example comb_three_crossings :
  verify comb_layer
  = Some (Ok (PyInt 3),
          Ok (PyResultSet
                (mkResultSet [["a"; "v"]; ["b"; "v"]; ["c"; "v"]]%string))).
Proof. vm_compute. reflexivity. Qed.

Example outside_x_range_no_crossing :
  verify [("H2", wH2); ("W", wW)]%string
  = Some (Ok (PyInt 0), Ok (PyResultSet (mkResultSet []))).
Proof. vm_compute. reflexivity. Qed.

Example touching_endpoint_crossing :
  verify touch_layer
  = Some (Ok (PyInt 1), Ok (PyResultSet (mkResultSet [["A"; "B"]]%string))).
Proof. vm_compute. reflexivity. Qed.

Example empty_layer_rejected : CrossVerifier_init [] = Raise ValueError.
Proof. reflexivity. Qed.

(* ================================================================== *)
(** * Further properties of the code *)

(** ** Wire and WireLayer *)

(** X1: [intersects] does not depend on which of the two wires it is
    called on. *)
Theorem intersects_symmetric a b : intersects a b = intersects b a.
Proof.
  unfold intersects.
  destruct (is_horizontal a), (is_horizontal b); reflexivity.
Qed.

Lemma Wire_init_rejects_or_builds nm ax ay bx by_ next :
  match fst (Wire_init nm ax ay bx by_ next) with
  | Raise e => e = ValueError /\ ax <> bx /\ ay <> by_
  | Ok w => (ax = bx \/ ay = by_) /\ (x1 w = x2 w \/ y1 w = y2 w)
  end.
Proof.
  unfold Wire_init, bind, next_object_id, is_horizontal, is_vertical.
  cbn. zbool.
  all: repeat split; try lia; auto.
Qed.

Lemma add_wire_cases layer nm ax ay bx by_ next :
  add_wire layer nm ax ay bx by_ next
  = if name_in nm layer then (Raise ValueError, next)
    else if negb (ax =? bx) && negb (ay =? by_)
         then (Raise ValueError, next + 1)
         else (Ok (layer ++ [(nm, mkWire nm (Z.min ax bx) (Z.min ay by_)
                                         (Z.max ax bx) (Z.max ay by_) next)]),
               next + 1).
Proof.
  unfold add_wire. destruct (name_in nm layer); [reflexivity|].
  unfold bind.
  pose proof (Wire_init_counter nm ax ay bx by_ next) as Hc.
  pose proof (Wire_init_rejects_or_builds nm ax ay bx by_ next) as Hr.
  pose proof (Wire_init_ok nm ax ay bx by_ next) as Hok.
  destruct (Wire_init nm ax ay bx by_ next) as [[w|e] n']; simpl in *; subst n'.
  - destruct Hr as (Hr & _).
    destruct (Z.eqb_spec ax bx); destruct (Z.eqb_spec ay by_); simpl;
      try (exfalso; lia).
    all: destruct (Hok w eq_refl) as (Hn & Hid & Hx1 & Hx2 & Hy1 & Hy2 & _);
      destruct w; simpl in *; subst; reflexivity.
  - destruct Hr as (He & Hx & Hy). subst e.
    destruct (Z.eqb_spec ax bx); destruct (Z.eqb_spec ay by_); simpl;
      try contradiction; reflexivity.
Qed.

(** X2: the three outcomes of [add_wire].  A name already in the layer is
    refused before a wire is built, so no object id is drawn; an oblique
    wire is refused after its id was drawn; otherwise the wire is stored
    with normalised endpoints under the id the counter held. *)
Theorem add_wire_outcome layer nm ax ay bx by_ next :
  add_wire layer nm ax ay bx by_ next
  = if name_in nm layer then (Raise ValueError, next)
    else if negb (ax =? bx) && negb (ay =? by_)
         then (Raise ValueError, next + 1)
         else (Ok (layer ++ [(nm, mkWire nm (Z.min ax bx) (Z.min ay by_)
                                         (Z.max ax bx) (Z.max ay by_) next)]),
               next + 1).
Proof. apply add_wire_cases. Qed.

Lemma name_in_spec nm layer :
  name_in nm layer = true <-> In nm (map fst layer).
Proof.
  unfold name_in. rewrite existsb_exists, in_map_iff. split.
  - intros (p & Hp & He). apply String.eqb_eq in He. eauto.
  - intros (p & He & Hp). exists p. split; [exact Hp|].
    now apply String.eqb_eq.
Qed.

Lemma consecutive_ids_S next n :
  consecutive_ids next (S n) = next :: consecutive_ids (next + 1) n.
Proof.
  unfold consecutive_ids. simpl. rewrite Z.add_0_r. f_equal.
  rewrite <- seq_shift, map_map. apply map_ext. intros i. lia.
Qed.

Lemma add_wires_spec records : forall layer next layer' next',
  add_wires layer records next = (Ok layer', next') ->
  exists added,
    layer' = layer ++ added /\
    map fst added = map (fun r => fst (fst r)) records /\
    Forall (fun p => name (snd p) = fst p) added /\
    map object_id (map snd added) = consecutive_ids next (length records) /\
    next' = next + Z.of_nat (length records) /\
    (NoDup (map fst layer) -> NoDup (map fst layer')).
Proof.
  induction records as [|[[nm [ax ay]] [bx by_]] rest IH];
    intros layer next layer' next'.
  - simpl. intros H. inversion H; subst. exists []. rewrite app_nil_r.
    repeat split; auto. lia.
  - cbn [add_wires]. unfold bind at 1. rewrite add_wire_cases.
    destruct (name_in nm layer) eqn:En; [discriminate|].
    destruct (negb (ax =? bx) && negb (ay =? by_)); [discriminate|].
    intros H. apply IH in H.
    destruct H as (added & Hl & Hn & Hown & Hids & Hnext & Hnd).
    subst layer'. eexists (_ :: added).
    split; [rewrite <- app_assoc; reflexivity|].
    split; [simpl; now rewrite Hn|].
    split; [constructor; [reflexivity|exact Hown]|].
    split; [simpl; rewrite Hids; now rewrite consecutive_ids_S|].
    split; [simpl length; lia|].
    intros Hnd0. apply Hnd. rewrite map_app. simpl.
    apply NoDup_app; [exact Hnd0|constructor; [simpl; tauto|constructor]|].
    intros a Ha [Hb|[]]. subst a.
    apply name_in_spec in Ha. congruence.
Qed.

(** X3: a layer read from a list of wire records, one [add_wire] per
    record starting from the empty layer, holds the records in order:
    the names are pairwise distinct, every wire is filed under its own
    name, and the object ids are consecutive, starting at the value the
    counter had. *)
Theorem built_layer_names_ids records next layer next' :
  add_wires [] records next = (Ok layer, next') ->
  map fst layer = map (fun r => fst (fst r)) records /\
  NoDup (map fst layer) /\
  Forall (fun p => name (snd p) = fst p) layer /\
  map object_id (layer_values layer) = consecutive_ids next (length records) /\
  next' = next + Z.of_nat (length records).
Proof.
  intros H. apply add_wires_spec in H.
  destruct H as (added & Hl & Hn & Hown & Hids & Hnext & Hnd).
  simpl in Hl. subst layer. unfold layer_values.
  repeat split; auto. apply Hnd. constructor.
Qed.

Lemma built_layer_names_ids_witness :
  map fst layer4 = ["H"; "V"; "H2"; "W"]%string /\
  NoDup (map fst layer4) /\
  Forall (fun p => name (snd p) = fst p) layer4 /\
  map object_id (layer_values layer4) = consecutive_ids 0 4 /\
  4 = 0 + Z.of_nat 4.
Proof.
  exact (@built_layer_names_ids demo_records 0 layer4 4 eq_refl).
Defined.

(** ** KeyWirePair *)

(** X4: the six comparison methods describe one strict total order on
    (key, wire_id): [<] is irreflexive and transitive, any two pairs are
    [<], [==] or [>], and [<=], [>], [>=], [!=] are what they should be in
    terms of [<] and [==]. *)
Theorem kwp_comparisons_coherent a b c :
  kwp_lt a a = false /\
  implb (kwp_lt a b && kwp_lt b c) (kwp_lt a c) = true /\
  (kwp_lt a b || kwp_eq a b || kwp_lt b a) = true /\
  (kwp_lt a b && kwp_lt b a) = false /\
  (kwp_lt a b && kwp_eq a b) = false /\
  kwp_le a b = kwp_lt a b || kwp_eq a b /\
  kwp_gt a b = kwp_lt b a /\
  kwp_ge a b = kwp_le b a /\
  kwp_ne a b = negb (kwp_eq a b).
Proof.
  split; [apply kwp_lt_irrefl|].
  split.
  { destruct (kwp_lt a b) eqn:E1; [|reflexivity].
    destruct (kwp_lt b c) eqn:E2; [|reflexivity].
    simpl. clear - E1 E2. kwp_cmp. }
  split.
  { destruct (kwp_lt a b) eqn:E1; [reflexivity|].
    destruct (kwp_eq a b) eqn:E2; [reflexivity|].
    simpl. clear - E1 E2. kwp_cmp. }
  split.
  { destruct (kwp_lt a b) eqn:E1; [|reflexivity].
    simpl. clear - E1. kwp_cmp. }
  split.
  { destruct (kwp_lt a b) eqn:E1; [|reflexivity].
    simpl. clear - E1. kwp_cmp. }
  split; [kwp_eqn|]. split; [apply kwp_gt_lt|].
  split; [apply kwp_ge_le|apply kwp_ne_eq].
Qed.

(** X5: between the two query sentinels lie exactly the keys whose y is
    in the closed interval, whatever the wire, as long as the wire's
    object id is within the +-10^9 hard-coded in the sentinels. *)
Theorem sentinels_select_by_key lo hi y w :
  -1000000000 <= object_id w <= 1000000000 ->
  in_range (KeyWirePairL lo) (KeyWirePairH hi) (KeyWirePair y w)
  = (lo <=? y) && (y <=? hi).
Proof.
  intros Hid.
  unfold in_range, kwp_le, KeyWirePair, KeyWirePairL, KeyWirePairH. simpl.
  destruct (Z.ltb_spec lo y); destruct (Z.eqb_spec lo y);
    destruct (Z.leb_spec lo y); destruct (Z.ltb_spec y hi);
    destruct (Z.eqb_spec y hi); destruct (Z.leb_spec y hi);
    destruct (Z.leb_spec (-1000000000) (object_id w));
    destruct (Z.leb_spec (object_id w) 1000000000);
    simpl; try reflexivity; lia.
Qed.

Lemma sentinels_select_by_key_witness :
  in_range (KeyWirePairL 0) (KeyWirePairH 3) (KeyWirePair 3 wH2) = true.
Proof.
  refine (@sentinels_select_by_key 0 3 3 wH2 _). simpl. lia.
Defined.

(** ** The binary search tree *)

Lemma bst_search_found t k x :
  bst_search t k = Some x -> In x (node_list t) /\ kwp_eq x k = true.
Proof.
  induction t as [|l IHl k0 r IHr]; simpl; [discriminate|].
  destruct (kwp_eq k0 k) eqn:E.
  - intros H. inversion H; subst. rewrite in_app_iff. simpl. auto.
  - destruct (kwp_gt k0 k); intros H.
    + destruct (IHl H). rewrite in_app_iff. auto.
    + destruct (IHr H). rewrite in_app_iff. simpl. auto.
Qed.

Lemma bst_search_locate t k : bst_search t k = remove_locate t k.
Proof.
  induction t as [|l IHl k0 r IHr]; simpl; [reflexivity|].
  rewrite kwp_ne_eq, kwp_gt_lt.
  destruct (kwp_eq k0 k); simpl; [reflexivity|].
  destruct (kwp_lt k k0); auto.
Qed.



(** X7: in an ordered tree a search finds a key equal to the one asked
    for exactly when such a key is stored. *)
Theorem bst_search_finds_present t k :
  bst_ok t ->
  (present k t <->
   exists x, bst_search t k = Some x /\ In x (node_list t)
             /\ kwp_eq x k = true).
Proof.
  intros Hok. split.
  - intros Hp. pose proof (@remove_locate_present t k Hok Hp) as Hl.
    rewrite <- bst_search_locate in Hl.
    destruct (bst_search t k) as [x|] eqn:E; [|congruence].
    exists x. split; [reflexivity|]. now apply bst_search_found.
  - intros (x & _ & Hx & He). exists x. auto.
Qed.

Lemma bst_search_finds_present_witness :
  present (key_n 4) tree_2_1_3_4 <->
  exists x, bst_search tree_2_1_3_4 (key_n 4) = Some x
            /\ In x (node_list tree_2_1_3_4)
            /\ kwp_eq x (key_n 4) = true.
Proof.
  apply (@bst_search_finds_present tree_2_1_3_4 (key_n 4)).
  simpl. repeat split; repeat constructor.
Defined.









Lemma remove_found_shape l k r :
  bst_ok (BST_Node l k r) ->
  if keeps_successor l r
  then exists m b', node_list r = m :: b' /\
                    node_list (remove_found l r) = node_list l ++ m :: m :: b'
  else node_list (remove_found l r) = node_list l ++ node_list r.
Proof.
  intros (Hl & Hr & Hokl & Hokr).
  destruct l as [|ll lk lr]; destruct r as [|rl rk rr].
  - reflexivity.
  - reflexivity.
  - simpl. now rewrite app_nil_r.
  - set (l := BST_Node ll lk lr) in *.
    destruct rl as [|a b c].
    + unfold remove_found, l. fold l. rewrite unlink_delNode_self.
      destruct rr as [|ra rb rc].
      * reflexivity.
      * exists rk, (node_list (BST_Node ra rb rc)). split; reflexivity.
    + destruct (@unlink_lowest_left_spec (BST_Node a b c) rk rr Hokr)
        as (Hlist & _); [discriminate|].
      unfold keeps_successor, l. rewrite Hlist. reflexivity.
Qed.

Lemma remove_from_shape t k : forall t',
  bst_ok t -> remove_from t k = Some t' ->
  exists l x r a0 b0,
    remove_locate_node t k = Some (l, x, r) /\
    kwp_eq x k = true /\
    node_list t = (a0 ++ node_list l) ++ x :: node_list r ++ b0 /\
    if keeps_successor l r
    then exists m b', node_list r = m :: b' /\
                      node_list t' = (a0 ++ node_list l) ++ m :: m :: b' ++ b0
    else node_list t' = (a0 ++ node_list l) ++ node_list r ++ b0.
Proof.
  induction t as [|l IHl k0 r IHr]; intros t' Hok; simpl; [discriminate|].
  pose proof Hok as (_ & _ & Hokl & Hokr).
  destruct (kwp_ne k0 k) eqn:E.
  - destruct (kwp_lt k k0).
    + destruct (remove_from l k) as [l'|]; [|discriminate].
      intros H. inversion H; subst t'. clear H.
      destruct (IHl l' Hokl eq_refl)
        as (nl & x & nr & a0 & b0 & Hloc & Hx & Hlist & Hcase).
      exists nl, x, nr, a0, (b0 ++ k0 :: node_list r).
      split; [exact Hloc|]. split; [exact Hx|]. split.
      * rewrite Hlist. rewrite <- ?app_assoc. simpl.
        rewrite <- ?app_assoc; reflexivity.
      * simpl. destruct (keeps_successor nl nr).
        -- destruct Hcase as (m & b' & Hr & Hc). exists m, b'.
           split; [exact Hr|]. rewrite Hc. rewrite <- ?app_assoc. simpl.
           rewrite <- ?app_assoc; reflexivity.
        -- rewrite Hcase. rewrite <- ?app_assoc; reflexivity.
    + destruct (remove_from r k) as [r'|]; [|discriminate].
      intros H. inversion H; subst t'. clear H.
      destruct (IHr r' Hokr eq_refl)
        as (nl & x & nr & a0 & b0 & Hloc & Hx & Hlist & Hcase).
      exists nl, x, nr, (node_list l ++ k0 :: a0), b0.
      split; [exact Hloc|]. split; [exact Hx|]. split.
      * rewrite Hlist. rewrite <- ?app_assoc. simpl.
        rewrite <- ?app_assoc; reflexivity.
      * simpl. destruct (keeps_successor nl nr).
        -- destruct Hcase as (m & b' & Hr & Hc). exists m, b'.
           split; [exact Hr|]. rewrite Hc. rewrite <- ?app_assoc. simpl.
           rewrite <- ?app_assoc; reflexivity.
        -- rewrite Hcase. rewrite <- ?app_assoc. simpl.
           rewrite <- ?app_assoc; reflexivity.
  - intros H. inversion H; subst t'. clear H.
    exists l, k0, r, [], []. rewrite !app_nil_r. simpl.
    split; [reflexivity|]. split.
    + rewrite kwp_ne_eq in E. now destruct (kwp_eq k0 k).
    + split; [reflexivity|].
      pose proof (remove_found_shape Hok) as Hc.
      destruct (keeps_successor l r); [|exact Hc].
      destruct Hc as (m & b' & Hr & Hc). exists m, b'.
      rewrite app_nil_r. auto.
Qed.

(** X10: what [remove] does to the in-order list of an ordered tree that
    stores the key.  It returns True and the tree stays ordered.  Let the
    search loop stop at a node with left child [l], key [x] (equal to the
    key asked for) and right child [r]; the in-order list reads
    [.. l, x, r ..].  If the node has two children and its right child has
    no left child but a right child, [x] is overwritten by a second copy
    of [m], the key of that right child, and the list keeps its length.
    In every other shape the entry [x] leaves the list and nothing else
    changes. *)
Theorem remove_inorder t k :
  bst_ok t -> present k t ->
  exists t' l x r a0 b0,
    BSTree_remove k t = (Ok true, t') /\ bst_ok t' /\
    remove_locate_node t k = Some (l, x, r) /\
    kwp_eq x k = true /\
    inorder_list t = (a0 ++ node_list l) ++ x :: node_list r ++ b0 /\
    if keeps_successor l r
    then exists m b', node_list r = m :: b' /\
           inorder_list t' = (a0 ++ node_list l) ++ m :: m :: b' ++ b0
    else inorder_list t' = (a0 ++ node_list l) ++ node_list r ++ b0.
Proof.
  intros Hok Hp.
  destruct (BSTree_remove_present Hok Hp) as (t' & Hrem & Hok' & _).
  assert (Hfrom : remove_from t k = Some t').
  { unfold BSTree_remove in Hrem.
    destruct (remove_locate t k) as [nk|]; [|discriminate].
    destruct (kwp_ne nk k); [discriminate|].
    destruct (remove_from t k); inversion Hrem; reflexivity. }
  destruct (@remove_from_shape t k t' Hok Hfrom)
    as (l & x & r & a0 & b0 & Hloc & Hx & Hlist & Hcase).
  exists t', l, x, r, a0, b0. auto 7.
Qed.

Lemma remove_inorder_witness :
  exists t' l x r a0 b0,
    BSTree_remove (key_n 2) tree_2_1_3_4 = (Ok true, t') /\ bst_ok t' /\
    remove_locate_node tree_2_1_3_4 (key_n 2) = Some (l, x, r) /\
    kwp_eq x (key_n 2) = true /\
    inorder_list tree_2_1_3_4 = (a0 ++ node_list l) ++ x :: node_list r ++ b0 /\
    if keeps_successor l r
    then exists m b', node_list r = m :: b' /\
           inorder_list t' = (a0 ++ node_list l) ++ m :: m :: b' ++ b0
    else inorder_list t' = (a0 ++ node_list l) ++ node_list r ++ b0.
Proof.
  apply (@remove_inorder tree_2_1_3_4 (key_n 2)).
  - simpl. repeat split; repeat constructor.
  - exists (key_n 2). split; [simpl; auto|reflexivity].
Defined.

(** Both shapes occur: removing key 2 from the tree 2(1, 3(-, 4)) leaves
    the in-order list 1, 3, 3, 4; removing key 3 leaves 1, 2, 4. *)
Example remove_inorder_both_shapes :
  map key (inorder_list (snd (BSTree_remove (key_n 2) tree_2_1_3_4)))
  = [1; 3; 3; 4] /\
  map key (inorder_list (snd (BSTree_remove (key_n 3) tree_2_1_3_4)))
  = [1; 2; 4].
Proof. split; reflexivity. Qed.

(** X11: on an ordered tree [remove] has two outcomes only: it returns
    True when the key is stored, and raises AttributeError, leaving the
    tree as it is, when the key is not stored.  It never returns False. *)
Theorem remove_outcomes t k :
  bst_ok t ->
  (present k t /\ exists t', BSTree_remove k t = (Ok true, t')) \/
  (~ present k t /\ BSTree_remove k t = (Raise AttributeError, t)).
Proof.
  intros Hok.
  destruct (remove_locate t k) as [nk|] eqn:E.
  - left. pose proof (remove_locate_found _ _ E) as Hp.
    split; [exact Hp|].
    destruct (BSTree_remove_present Hok Hp) as (t' & Hrem & _). eauto.
  - right.
    assert (Hn : ~ present k t).
    { intros Hp. now apply (@remove_locate_present t k Hok Hp). }
    split; [exact Hn|now apply BSTree_remove_absent].
Qed.

Lemma remove_outcomes_witness :
  (present (key_n 5) tree_2_1_3_4 /\
   exists t', BSTree_remove (key_n 5) tree_2_1_3_4 = (Ok true, t')) \/
  (~ present (key_n 5) tree_2_1_3_4 /\
   BSTree_remove (key_n 5) tree_2_1_3_4 = (Raise AttributeError, tree_2_1_3_4)).
Proof.
  apply (@remove_outcomes tree_2_1_3_4 (key_n 5)).
  simpl. repeat split; repeat constructor.
Defined.

(** ** RangeIndex *)

(** X12: whatever operations an index has gone through since it was
    created, and whether or not the last one raised, the in-order list of
    its tree is in non-descending key order. *)
Theorem reached_index_inorder_sorted ops :
  non_descending
    (inorder_list (bst_data (snd (run_ops ops RangeIndex_init)))).
Proof.
  apply bst_ok_sorted.
  destruct (run_ops ops RangeIndex_init) as [r self'] eqn:E.
  apply (@run_ops_bst_ok ops RangeIndex_init r self'); [exact I|exact E].
Qed.

Lemma run_ops_data_grows ops : forall self,
  exists extra, data (snd (run_ops ops self)) = data self ++ extra.
Proof.
  induction ops as [|o ops IH]; intros self.
  - exists []. simpl. now rewrite app_nil_r.
  - unfold run_ops. rewrite for_each_cons.
    destruct (run_op o self) as [[u|e] s1] eqn:Ho.
    + destruct (IH s1) as (extra & Hx). unfold run_ops in Hx. rewrite Hx.
      destruct o as [k|k]; simpl in Ho.
      * rewrite RangeIndex_add_spec in Ho. inversion Ho; subst; simpl.
        exists ([k] ++ extra). now rewrite <- app_assoc.
      * pose proof (RangeIndex_remove_data k self) as Hd.
        rewrite Ho in Hd. simpl in Hd. rewrite Hd. eauto.
    + exists []. simpl. rewrite app_nil_r.
      destruct o as [k|k]; simpl in Ho.
      * rewrite RangeIndex_add_spec in Ho. discriminate.
      * pose proof (RangeIndex_remove_data k self) as Hd.
        rewrite Ho in Hd. exact Hd.
Qed.

(** X13: no sequence of operations ever makes a range query return less:
    every key listed before is listed after, and the count does not go
    down, removals included. *)
Theorem range_queries_never_shrink ops self first_key last_key :
  incl (RangeIndex_list self first_key last_key)
       (RangeIndex_list (snd (run_ops ops self)) first_key last_key) /\
  (RangeIndex_count self first_key last_key
   <= RangeIndex_count (snd (run_ops ops self)) first_key last_key)%nat.
Proof.
  destruct (run_ops_data_grows ops self) as (extra & Hd).
  rewrite !RangeIndex_count_length. unfold RangeIndex_list. rewrite Hd.
  rewrite filter_app. split.
  - apply incl_appl, incl_refl.
  - rewrite length_app. lia.
Qed.

(** ** ResultSet *)

Lemma sorted_names_comm a b : sorted_names a b = sorted_names b a.
Proof.
  unfold sorted_names, String.ltb.
  rewrite (String.compare_antisym b a).
  destruct (String.compare a b) eqn:E; simpl; try reflexivity.
  apply String.compare_eq_iff in E. now subst.
Qed.

(** X14: the pair stored for a crossing does not depend on the order in
    which the two wires are given, holds their two names, and has them in
    lexicographic order. *)
Theorem add_crossing_order_independent rs wire1 wire2 :
  add_crossing rs wire1 wire2 = add_crossing rs wire2 wire1 /\
  exists first second,
    sorted_names (name wire1) (name wire2) = [first; second] /\
    Permutation [first; second] [name wire1; name wire2] /\
    String.ltb second first = false.
Proof.
  split.
  - unfold add_crossing. now rewrite sorted_names_comm.
  - unfold sorted_names.
    destruct (String.ltb (name wire2) (name wire1)) eqn:E.
    + exists (name wire2), (name wire1). repeat split; [apply perm_swap|].
      unfold String.ltb in *. rewrite String.compare_antisym.
      destruct (String.compare (name wire2) (name wire1)); simpl;
        try reflexivity; discriminate.
    + exists (name wire1), (name wire2). repeat split; auto.
Qed.

(** ** CrossVerifier *)

Lemma length_wire_events ws :
  length (flat_map wire_events ws)
  = (2 * length (filter is_horizontal ws)
     + length (filter (fun w => negb (is_horizontal w)) ws))%nat.
Proof.
  induction ws as [|w ws IH]; simpl; [reflexivity|].
  rewrite length_app, IH. unfold wire_events.
  destruct (is_horizontal w); simpl; lia.
Qed.

(** X15: building a verifier fails, with ValueError, exactly on the empty
    layer.  Otherwise the verifier is unused, its index and result set
    are empty, and its events are those of the layer, two for each
    horizontal wire and one for each other wire, ordered by
    (x, rank, object id). *)
Theorem fresh_verifier layer :
  match CrossVerifier_init layer with
  | Raise e => e = ValueError /\ layer = []
  | Ok v =>
      layer <> [] /\ performed v = false /\ index v = RangeIndex_init /\
      crossings (result_set v) = [] /\
      Permutation (events v) (flat_map wire_events (layer_values layer)) /\
      events_sorted (events v) /\
      length (events v)
      = (2 * length (filter is_horizontal (layer_values layer))
         + length (filter (fun w => negb (is_horizontal w))
                          (layer_values layer)))%nat
  end.
Proof.
  destruct layer as [|p layer]; [simpl; auto|].
  rewrite CrossVerifier_init_ok by discriminate.
  cbn [events performed index result_set crossings].
  repeat split; try discriminate.
  - apply sort_events_perm.
  - apply sort_events_sorted.
  - rewrite (Permutation_length (sort_events_perm _)).
    apply length_wire_events.
Qed.

Lemma call_unfold c v :
  call c v
  = if performed v then (Raise RuntimeError, v)
    else compute_crossings c
           (mkCrossVerifier (events v) (index v) (result_set v) true).
Proof.
  destruct c; unfold call, count_crossings, wire_crossings, bind, get,
    set_performed; destruct (performed v); reflexivity.
Qed.

Lemma call_performed c v : performed (snd (call c v)) = true.
Proof.
  rewrite call_unfold. destruct (performed v) eqn:E; [exact E|].
  now rewrite compute_crossings_frame.
Qed.

(** X16: a verifier is used up by any call of either entry point,
    whether that call returned a result, raised inside the sweep, or was
    itself refused: every later call of either entry point raises and
    leaves the verifier as it is. *)
Theorem any_call_uses_up c c' v :
  call c' (snd (call c v)) = (Raise RuntimeError, snd (call c v)).
Proof.
  rewrite (call_unfold c' (snd (call c v))).
  now rewrite call_performed.
Qed.

Lemma process_event_result_set c e n v r v' :
  process_event c e n v = (r, v') ->
  (c = true -> result_set v' = result_set v) /\
  exists extra,
    crossings (result_set v') = crossings (result_set v) ++ extra.
Proof.
  assert (Hsame : forall rs : ResultSet,
            (c = true -> rs = rs) /\
            exists extra, crossings rs = crossings rs ++ extra).
  { intros rs. split; [reflexivity|]. exists []. now rewrite app_nil_r. }
  destruct (ev_type e) eqn:He.
  - rewrite process_event_add by exact He. intros H; inversion H; apply Hsame.
  - rewrite process_event_delete by exact He.
    destruct (BSTree_remove _ _) as [[b|x] t]; intros H; inversion H;
      apply Hsame.
  - unfold process_event. rewrite He. unfold bind, get.
    match goal with |- context [collect_cross_wires ?w ?l ?a v] =>
      pose proof (collect_cross_wires_state w l a v) as Hs;
      destruct (collect_cross_wires w l a v) as [[cws|x] s] end;
      simpl in Hs; subst s.
    + destruct c.
      * intros H; inversion H; apply Hsame.
      * rewrite record_all_crossings. intros H; inversion H; simpl.
        split; [discriminate|eauto].
    + intros H; inversion H; apply Hsame.
Qed.

Lemma sweep_result_set c evs : forall n v,
  (c = true -> result_set (snd (sweep c evs n v)) = result_set v) /\
  exists extra,
    crossings (result_set (snd (sweep c evs n v)))
    = crossings (result_set v) ++ extra.
Proof.
  induction evs as [|e evs IH]; intros n v; simpl.
  - split; [reflexivity|]. exists []. now rewrite app_nil_r.
  - unfold bind.
    destruct (process_event c e n v) as [[r|x] v1] eqn:E;
      destruct (process_event_result_set _ _ _ _ E) as (H1 & x1 & H2).
    + destruct (IH r v1) as (H3 & x2 & H4). split.
      * intros Hc. rewrite H3, H1; auto.
      * exists (x1 ++ x2). rewrite H4, H2. now rewrite <- app_assoc.
    + simpl. split; [exact H1|eauto].
Qed.

Lemma compute_crossings_unfold c v :
  compute_crossings c v
  = match sweep c (events v) 0 v with
    | (Ok n, v1) =>
        (Ok (if c then PyInt n else PyResultSet (result_set v1)), v1)
    | (Raise x, v1) => (Raise x, v1)
    end.
Proof.
  unfold compute_crossings, bind, get.
  destruct (sweep c (events v) 0 v) as [[n|x] v1]; [|reflexivity].
  destruct c; reflexivity.
Qed.

Lemma compute_crossings_result_set c v :
  (c = true -> result_set (snd (compute_crossings c v)) = result_set v) /\
  (exists extra,
     crossings (result_set (snd (compute_crossings c v)))
     = crossings (result_set v) ++ extra) /\
  match fst (compute_crossings c v) with
  | Ok (PyInt _) => c = true
  | Ok (PyResultSet rs) =>
      c = false /\ rs = result_set (snd (compute_crossings c v))
  | Raise _ => True
  end.
Proof.
  rewrite compute_crossings_unfold.
  pose proof (sweep_result_set c (events v) 0 v) as (H1 & H2).
  destruct (sweep c (events v) 0 v) as [[n|x] v1]; simpl in *.
  - destruct c; simpl; auto.
  - auto.
Qed.

(** X17: counting never records anything: [count_crossings] leaves the
    result set as it was and returns an integer if it returns.
    [wire_crossings] only appends to the result set and, if it returns,
    returns the verifier's own result set. *)
Theorem result_set_use v :
  result_set (snd (count_crossings v)) = result_set v /\
  match fst (count_crossings v) with
  | Ok (PyResultSet _) => False
  | _ => True
  end /\
  (exists extra,
     crossings (result_set (snd (wire_crossings v)))
     = crossings (result_set v) ++ extra) /\
  match fst (wire_crossings v) with
  | Ok (PyInt _) => False
  | Ok (PyResultSet rs) => rs = result_set (snd (wire_crossings v))
  | Raise _ => True
  end.
Proof.
  pose proof (call_unfold true v) as Hc. pose proof (call_unfold false v) as Hl.
  unfold call in Hc, Hl. rewrite Hc, Hl.
  destruct (performed v).
  - simpl. repeat split; auto. exists []. now rewrite app_nil_r.
  - set (v1 := mkCrossVerifier (events v) (index v) (result_set v) true).
    destruct (compute_crossings_result_set true v1) as (A1 & _ & A3).
    destruct (compute_crossings_result_set false v1) as (_ & B2 & B3).
    split; [now apply A1|]. split.
    + destruct (fst (compute_crossings true v1)) as [[n|rs]|x]; auto.
      destruct A3; discriminate.
    + split; [exact B2|].
      destruct (fst (compute_crossings false v1)) as [[n|rs]|x]; auto.
      * discriminate.
      * apply B3.
Qed.

(** *** The verifier reports each crossing, once *)

Lemma intersects_inv V H :
  is_horizontal V = false -> is_horizontal H = true ->
  intersects V H = true ->
  y1 V <= y1 H <= y2 V /\ x1 H <= x1 V <= x2 H.
Proof.
  intros Hv Hh. unfold intersects. rewrite Hv, Hh. simpl.
  intros Hi. bool_lia.
Qed.

(** Two events of a well-formed list with the same type and the same
    wire are one event. *)
Lemma event_determined evs e e' :
  events_ok evs -> In e evs -> In e' evs ->
  ev_type e = ev_type e' -> ev_wire e = ev_wire e' -> e = e'.
Proof.
  intros (_ & Hform & _) He He' Ht Hw.
  destruct (Hform e He) as (Hs & _), (Hform e' He') as (Hs' & _).
  rewrite <- Hw in Hs'.
  destruct Hs as [Hs|[Hs|Hs]]; destruct Hs' as [Hs'|[Hs'|Hs']];
    rewrite Hs, Hs' in *; try reflexivity; discriminate.
Qed.

Lemma typed_wires_NoDup (ty : event_type) evs :
  NoDup evs ->
  (forall e e', In e evs -> In e' evs ->
     ev_type e = ev_type e' -> ev_wire e = ev_wire e' -> e = e') ->
  NoDup (flat_map (fun e => match ev_type e, ty with
                            | add, add | query, query | delete, delete =>
                                [ev_wire e]
                            | _, _ => []
                            end) evs).
Proof.
  induction evs as [|e evs IH]; intros Hnd Hdet; simpl; [constructor|].
  inversion Hnd as [|? ? Hne Hnd']; subst.
  assert (IH' := IH Hnd' (fun a b Ha Hb => Hdet a b (or_intror Ha) (or_intror Hb))).
  assert (Hfresh : forall e', In e' evs -> ev_type e = ev_type e' ->
                              ev_wire e <> ev_wire e').
  { intros e' He' Ht Hw. apply Hne.
    rewrite (Hdet e e' (or_introl eq_refl) (or_intror He') Ht Hw). exact He'. }
  destruct (ev_type e) eqn:Et; destruct ty; simpl; try exact IH'.
  all: constructor; [|exact IH'].
  all: intros Hin; apply in_flat_map in Hin; destruct Hin as (e' & He' & Hw).
  all: destruct (ev_type e') eqn:Et'; simpl in Hw; try tauto.
  all: destruct Hw as [Hw|[]]; apply (Hfresh e' He'); congruence.
Qed.

Lemma added_wires_NoDup evs : events_ok evs -> NoDup (added_wires evs).
Proof.
  intros Hok. pose proof Hok as (Hnd & _).
  pose proof (@typed_wires_NoDup add evs Hnd
                (fun e e' => @event_determined evs e e' Hok)) as H.
  exact H.
Qed.

Lemma query_wires_NoDup evs : events_ok evs -> NoDup (query_wires evs).
Proof.
  intros Hok. pose proof Hok as (Hnd & _).
  pose proof (@typed_wires_NoDup query evs Hnd
                (fun e e' => @event_determined evs e e' Hok)) as H.
  exact H.
Qed.

Lemma wires_of_app a b : wires_of (a ++ b) = wires_of a ++ wires_of b.
Proof. unfold wires_of. apply flat_map_app. Qed.

Lemma cross_list_wires_of w ks h :
  In h (cross_list w ks) -> In h (wires_of ks).
Proof.
  intros Hh. apply cross_list_In in Hh. destruct Hh as (k & Hk & Hw & _).
  unfold wires_of. apply in_flat_map. exists k. rewrite Hw. simpl. auto.
Qed.

Lemma cross_list_NoDup w f ks :
  NoDup (wires_of ks) -> NoDup (cross_list w (filter f ks)).
Proof.
  induction ks as [|k ks IH]; simpl; intros Hnd; [constructor|].
  assert (Hnd' : NoDup (wires_of ks)).
  { destruct (wire k); simpl in Hnd; [now inversion Hnd|exact Hnd]. }
  destruct (f k); [|now apply IH].
  unfold cross_list. simpl. fold (cross_list w (filter f ks)).
  destruct (wire k) as [h|] eqn:Ew; [|now apply IH].
  destruct (intersects w h); [|now apply IH].
  simpl. constructor; [|now apply IH].
  intros Hin. apply cross_list_wires_of in Hin.
  simpl in Hnd. inversion Hnd as [|? ? Hh _]; subst. apply Hh.
  unfold wires_of in *. apply in_flat_map in Hin.
  destruct Hin as (k' & Hk' & Hw'). apply filter_In in Hk'.
  apply in_flat_map. exists k'. split; [apply Hk'|exact Hw'].
Qed.

Lemma sweep_pairs_query_wire evs : forall dat p,
  In p (sweep_pairs evs dat) -> In (fst p) (query_wires evs).
Proof.
  intros dat p Hp.
  destruct (sweep_pairs_sound _ _ _ Hp) as (e & _ & He & Hq & Hf & _).
  unfold query_wires. apply in_flat_map. exists e. rewrite Hq, Hf.
  simpl. auto.
Qed.

Lemma NoDup_map_pair {A B} (a : A) (l : list B) :
  NoDup l -> NoDup (map (pair a) l).
Proof.
  induction 1 as [|b l Hb Hl IH]; simpl; constructor; auto.
  intros Hin. apply in_map_iff in Hin. destruct Hin as (b' & Hp & Hb').
  inversion Hp; subst. contradiction.
Qed.

Lemma sweep_pairs_NoDup evs : forall dat,
  NoDup (wires_of dat ++ added_wires evs) ->
  NoDup (query_wires evs) ->
  NoDup (sweep_pairs evs dat).
Proof.
  induction evs as [|e evs IH]; intros dat Hdat Hq; simpl; [constructor|].
  unfold added_wires, query_wires in Hdat, Hq. simpl in Hdat, Hq.
  fold (added_wires evs) in Hdat. fold (query_wires evs) in Hq.
  destruct (ev_type e) eqn:Et; simpl in Hdat, Hq.
  - apply IH; [|exact Hq].
    rewrite wires_of_app. simpl. now rewrite <- app_assoc.
  - now apply IH.
  - inversion Hq as [|? ? Hfresh Hq']; subst.
    apply NoDup_app.
    + apply NoDup_map_pair.
      apply cross_list_NoDup. now apply NoDup_app_remove_r in Hdat.
    + now apply IH.
    + intros p Hp Hp'. apply in_map_iff in Hp.
      destruct Hp as (h & Hph & _). subst p.
      apply sweep_pairs_query_wire in Hp'. simpl in Hp'. contradiction.
Qed.

(** X18: on a well-formed, non-empty layer whose object ids are within
    the sentinels' range, the pairs behind the results of both entry
    points are exactly the crossings of the layer, each one once: a pair
    (V, H) is reported if and only if V and H are wires of the layer, V is
    not horizontal, H is horizontal and [intersects] accepts them.  So
    [count_crossings] returns the number of crossing pairs. *)
Theorem crossings_exact layer :
  layer_wf layer -> layer <> [] -> ids_in_sentinel_range layer ->
  exists v v1 v2 rs pairs,
    CrossVerifier_init layer = Ok v /\
    count_crossings v = (Ok (PyInt (length pairs)), v1) /\
    wire_crossings v = (Ok (PyResultSet rs), v2) /\
    crossings rs = map pair_names pairs /\
    NoDup pairs /\
    forall V H, In (V, H) pairs <-> crosses layer V H.
Proof.
  intros Hwf Hne Hids.
  destruct (verifier_run Hwf Hne) as (v & v1 & v2 & Hi & Hev & Hc & Hl & Hrs).
  destruct (sorted_layer_events Hwf) as (Hok & _).
  exists v, v1, v2, (result_set v2), (sweep_pairs (events v) []).
  split; [exact Hi|]. split; [exact Hc|]. split; [exact Hl|].
  split; [exact Hrs|]. rewrite Hev. split.
  - apply sweep_pairs_NoDup; simpl.
    + now apply added_wires_NoDup.
    + now apply query_wires_NoDup.
  - intros V H. split.
    + intros Hin. apply (@sweep_pairs_genuine layer (V, H) Hwf) in Hin.
      destruct Hin as (HV & HH & _ & Hv & Hh & Hint).
      unfold crosses. auto.
    + intros (HV & HH & Hv & Hh & Hint).
      destruct (@intersects_inv V H Hv Hh Hint) as (Hy & Hx).
      apply crossing_reported; auto.
      unfold ids_in_sentinel_range in Hids. rewrite Forall_forall in Hids.
      now apply Hids.
Qed.

Lemma layer4_ids_in_range : ids_in_sentinel_range layer4.
Proof. repeat constructor; simpl; lia. Defined.

Lemma crossings_exact_witness :
  exists v v1 v2 rs pairs,
    CrossVerifier_init layer4 = Ok v /\
    count_crossings v = (Ok (PyInt (length pairs)), v1) /\
    wire_crossings v = (Ok (PyResultSet rs), v2) /\
    crossings rs = map pair_names pairs /\
    NoDup pairs /\
    forall V H, In (V, H) pairs <-> crosses layer4 V H.
Proof.
  apply (@crossings_exact layer4).
  - exact layer4_wf.
  - discriminate.
  - exact layer4_ids_in_range.
Defined.

(* ================================================================== *)
(** ** The traced classes *)

Lemma traced_add_spec w y i tr :
  TracedRangeIndex_add (KeyWirePair y w) (i, tr)
  = (Ok tt, (snd (RangeIndex_add (KeyWirePair y w) i), tr ++ [TrAdd (name w)])).
Proof.
  unfold TracedRangeIndex_add, bind, key_wire_name, trace_append, untraced,
    ret. simpl. rewrite RangeIndex_add_spec. reflexivity.
Qed.

Lemma traced_remove_spec w y i tr :
  TracedRangeIndex_remove (KeyWirePair y w) (i, tr)
  = (fst (RangeIndex_remove (KeyWirePair y w) i),
     (snd (RangeIndex_remove (KeyWirePair y w) i), tr ++ [TrDelete (name w)])).
Proof.
  unfold TracedRangeIndex_remove, bind, key_wire_name, trace_append, untraced,
    ret. simpl.
  destruct (RangeIndex_remove (KeyWirePair y w) i) as [r i']. reflexivity.
Qed.

(** A list of keys either has a wire on every key, or makes both the
    name comprehension of the traced index and the intersection loop of
    the sweep raise AttributeError. *)
Lemma keys_with_wires ks :
  Forall (fun k => wire k <> None) ks \/
  ((forall S (s : S), key_wire_names ks s = (Raise AttributeError, s)) /\
   (forall S w acc (s : S),
      collect_cross_wires w ks acc s = (Raise AttributeError, s))).
Proof.
  induction ks as [|k ks IH]; [left; constructor|].
  destruct (wire k) as [h|] eqn:Ek.
  - destruct IH as [IH|(IH1 & IH2)].
    + left. constructor; [congruence|exact IH].
    + right. split.
      * intros S s. simpl. unfold bind, key_wire_name. rewrite Ek.
        unfold ret. now rewrite IH1.
      * intros S w acc s. simpl. rewrite Ek. apply IH2.
  - right. split.
    + intros S s. simpl. unfold bind, key_wire_name. now rewrite Ek.
    + intros S w acc s. simpl. now rewrite Ek.
Qed.

Lemma key_wire_names_ok {S} ks (s : S) :
  Forall (fun k => wire k <> None) ks ->
  key_wire_names ks s = (Ok (map name (wires_of ks)), s).
Proof.
  induction ks as [|k ks IH]; intros H; [reflexivity|].
  inversion H as [|? ? Hk Hks]; subst. simpl.
  unfold bind, key_wire_name. destruct (wire k) as [h|] eqn:Ek; [|congruence].
  unfold ret. rewrite (IH Hks). reflexivity.
Qed.

Lemma traced_list_spec first_key last_key i tr :
  TracedRangeIndex_list first_key last_key (i, tr)
  = match fst (key_wire_names (RangeIndex_list i first_key last_key) tt) with
    | Ok ids =>
        (Ok (RangeIndex_list i first_key last_key),
         (i, tr ++ [TrList (key first_key) (key last_key) ids]))
    | Raise x => (Raise x, (i, tr))
    end.
Proof.
  unfold TracedRangeIndex_list, bind, get. simpl.
  destruct (keys_with_wires (RangeIndex_list i first_key last_key))
    as [H|(H & _)].
  - rewrite !key_wire_names_ok by exact H. reflexivity.
  - rewrite !H. reflexivity.
Qed.

(** [TracedRangeIndex.count] returns the length of what [list] returns for
    the same bounds, leaves the index untouched and appends one record. *)
Lemma traced_count_spec first_key last_key i tr :
  TracedRangeIndex_count first_key last_key (i, tr)
  = (Ok (length (RangeIndex_list i first_key last_key)),
     (i, tr ++ [TrCount (key first_key) (key last_key)
                        (RangeIndex_count i first_key last_key)])).
Proof.
  unfold TracedRangeIndex_count, bind, get, trace_append, ret. simpl.
  now rewrite RangeIndex_count_length.
Qed.

Lemma traced_record_all w cws : forall tv,
  for_each cws
    (fun cross_wire =>
       on_traced_result_set (TracedResultSet_add_crossing w cross_wire)) tv
  = (Ok tt,
     mkTraced
       (mkCrossVerifier (events (base tv)) (index (base tv))
          (mkResultSet (crossings (result_set (base tv))
                        ++ map pair_names (map (pair w) cws)))
          (performed (base tv)))
       (trace tv ++ map (fun h => TrCrossing (name w) (name h)) cws)).
Proof.
  induction cws as [|h cws IH]; intros tv.
  - simpl. rewrite !app_nil_r.
    destruct tv as [[? ? [] ?] ?]. reflexivity.
  - rewrite for_each_cons.
    unfold on_traced_result_set at 1, TracedResultSet_add_crossing, bind,
      trace_append, untraced. simpl.
    rewrite IH. simpl. unfold add_crossing. simpl.
    now rewrite <- !app_assoc.
Qed.

Lemma trace_crossings_app a b :
  trace_crossings (a ++ b) = trace_crossings a ++ trace_crossings b.
Proof. unfold trace_crossings. apply flat_map_app. Qed.

Lemma trace_crossings_recorded w cws :
  trace_crossings (map (fun h => TrCrossing (name w) (name h)) cws)
  = map pair_names (map (pair w) cws).
Proof.
  induction cws as [|h cws IH]; simpl; [reflexivity|].
  unfold trace_crossings in *. simpl. now rewrite IH.
Qed.

(** One event of the traced sweep: same outcome and same verifier as the
    plain sweep, a longer trace, and as many new crossing records in the
    trace as new crossings in the result set. *)
Lemma traced_process_event_spec c e n tv :
  exists extra,
    fst (traced_process_event c e n tv) = fst (process_event c e n (base tv)) /\
    base (snd (traced_process_event c e n tv))
    = snd (process_event c e n (base tv)) /\
    trace (snd (traced_process_event c e n tv)) = trace tv ++ extra /\
    crossings (result_set (snd (process_event c e n (base tv))))
    = crossings (result_set (base tv)) ++ trace_crossings extra.
Proof.
  destruct (ev_type e) eqn:He.
  - exists [TrAdd (name (ev_wire e))].
    rewrite process_event_add by exact He.
    unfold traced_process_event. rewrite He.
    unfold bind, on_traced_index. rewrite traced_add_spec.
    rewrite RangeIndex_add_spec. simpl. rewrite app_nil_r. auto.
  - exists [TrDelete (name (ev_wire e))].
    unfold process_event, traced_process_event. rewrite He.
    unfold bind, on_traced_index, on_index. rewrite traced_remove_spec.
    destruct (RangeIndex_remove (KeyWirePair (y1 (ev_wire e)) (ev_wire e))
                                (index (base tv))) as [[u|x] i'];
      simpl; rewrite app_nil_r; auto.
  - set (ks := RangeIndex_list (index (base tv))
                 (KeyWirePairL (y1 (ev_wire e)))
                 (KeyWirePairH (y2 (ev_wire e)))).
    destruct (keys_with_wires ks) as [Hw|(Hn & Hc)].
    + assert (Hplain :
        process_event c e n (base tv)
        = if c then (Ok (n + length (cross_list (ev_wire e) ks))%nat, base tv)
          else (Ok n,
                mkCrossVerifier (events (base tv)) (index (base tv))
                  (mkResultSet
                     (crossings (result_set (base tv))
                      ++ map pair_names
                           (map (pair (ev_wire e))
                                (cross_list (ev_wire e) ks))))
                  (performed (base tv)))).
      { unfold process_event. rewrite He. unfold bind, get. fold ks.
        rewrite collect_cross_wires_ok by exact Hw. cbn [app].
        destruct c; [reflexivity|]. now rewrite record_all_crossings. }
      assert (Htraced :
        traced_process_event c e n tv
        = if c then
            (Ok (n + length (cross_list (ev_wire e) ks))%nat,
             mkTraced (base tv)
               (trace tv
                ++ [TrSweep (ev_x e);
                    TrList (y1 (ev_wire e)) (y2 (ev_wire e))
                           (map name (wires_of ks))]))
          else
            (Ok n,
             mkTraced
               (mkCrossVerifier (events (base tv)) (index (base tv))
                  (mkResultSet
                     (crossings (result_set (base tv))
                      ++ map pair_names
                           (map (pair (ev_wire e))
                                (cross_list (ev_wire e) ks))))
                  (performed (base tv)))
               (trace tv
                ++ [TrSweep (ev_x e);
                    TrList (y1 (ev_wire e)) (y2 (ev_wire e))
                           (map name (wires_of ks))]
                ++ map (fun h => TrCrossing (name (ev_wire e)) (name h))
                       (cross_list (ev_wire e) ks)))).
      { unfold traced_process_event. rewrite He.
        unfold bind, trace_sweep_line, on_traced_index. cbn [base trace].
        rewrite traced_list_spec. fold ks.
        rewrite (key_wire_names_ok tt Hw). cbn [fst snd].
        rewrite collect_cross_wires_ok by exact Hw. cbn [app].
        destruct c.
        - unfold ret. rewrite <- app_assoc. simpl.
          now destruct tv as [[? ? ? ?] ?].
        - rewrite traced_record_all. cbn [base trace events index result_set
                                          performed].
          unfold ret. now rewrite <- !app_assoc. }
      rewrite Hplain, Htraced. clear Hplain Htraced.
      destruct c; eexists; cbn [fst snd base trace result_set crossings].
      * split; [reflexivity|]. split; [reflexivity|].
        split; [reflexivity|]. simpl. now rewrite app_nil_r.
      * split; [reflexivity|]. split; [reflexivity|].
        split; [reflexivity|].
        change (?a :: ?b :: ?l) with ([a; b] ++ l).
        rewrite trace_crossings_app, trace_crossings_recorded. reflexivity.
    + assert (Hplain : process_event c e n (base tv)
                       = (Raise AttributeError, base tv)).
      { unfold process_event. rewrite He. unfold bind, get. fold ks.
        now rewrite Hc. }
      assert (Htraced :
        traced_process_event c e n tv
        = (Raise AttributeError,
           mkTraced (base tv) (trace tv ++ [TrSweep (ev_x e)]))).
      { unfold traced_process_event. rewrite He.
        unfold bind, trace_sweep_line, on_traced_index. cbn [base trace].
        rewrite traced_list_spec. fold ks. rewrite (Hn unit tt).
        cbn [fst snd]. now destruct tv as [[? ? ? ?] ?]. }
      rewrite Hplain, Htraced.
      exists [TrSweep (ev_x e)]. cbn [fst snd base trace].
      split; [reflexivity|]. split; [reflexivity|].
      split; [reflexivity|]. simpl. now rewrite app_nil_r.
Qed.

Lemma traced_sweep_spec c evs : forall n tv,
  exists extra,
    fst (traced_sweep c evs n tv) = fst (sweep c evs n (base tv)) /\
    base (snd (traced_sweep c evs n tv)) = snd (sweep c evs n (base tv)) /\
    trace (snd (traced_sweep c evs n tv)) = trace tv ++ extra /\
    crossings (result_set (snd (sweep c evs n (base tv))))
    = crossings (result_set (base tv)) ++ trace_crossings extra.
Proof.
  induction evs as [|e evs IH]; intros n tv.
  - exists []. simpl. rewrite !app_nil_r. auto.
  - simpl. unfold bind.
    destruct (traced_process_event_spec c e n tv)
      as (x1 & Hr & Hb & Ht & Hc).
    destruct (traced_process_event c e n tv) as [r tv1].
    destruct (process_event c e n (base tv)) as [r' v1].
    simpl in Hr, Hb, Ht, Hc. subst r' v1.
    destruct r as [m|x].
    + destruct (IH m tv1) as (x2 & Hr2 & Hb2 & Ht2 & Hc2).
      exists (x1 ++ x2). rewrite Hr2, Hb2, Ht2, Hc2, Ht, Hc.
      rewrite trace_crossings_app, !app_assoc. auto.
    + exists x1. simpl. auto.
Qed.

Lemma traced_compute_crossings_unfold c tv :
  traced_compute_crossings c tv
  = match traced_sweep c (events (base tv)) 0 tv with
    | (Ok n, tv1) =>
        (Ok (if c then PyInt n else PyResultSet (result_set (base tv1))), tv1)
    | (Raise x, tv1) => (Raise x, tv1)
    end.
Proof.
  unfold traced_compute_crossings, bind, get.
  destruct (traced_sweep c (events (base tv)) 0 tv) as [[n|x] tv1];
    [|reflexivity].
  destruct c; reflexivity.
Qed.

Lemma traced_call_spec c tv :
  exists extra,
    fst (traced_call c tv) = fst (call c (base tv)) /\
    base (snd (traced_call c tv)) = snd (call c (base tv)) /\
    trace (snd (traced_call c tv)) = trace tv ++ extra /\
    crossings (result_set (snd (call c (base tv))))
    = crossings (result_set (base tv)) ++ trace_crossings extra.
Proof.
  rewrite call_unfold.
  assert (Hentry :
    traced_call c tv
    = if performed (base tv) then (Raise RuntimeError, tv)
      else traced_compute_crossings c
             (mkTraced (mkCrossVerifier (events (base tv)) (index (base tv))
                                        (result_set (base tv)) true)
                       (trace tv))).
  { destruct c; unfold traced_call, traced_count_crossings,
      traced_wire_crossings, bind, get, traced_set_performed;
      destruct (performed (base tv)); reflexivity. }
  rewrite Hentry. destruct (performed (base tv)).
  - exists []. simpl. rewrite !app_nil_r. auto.
  - rewrite compute_crossings_unfold, traced_compute_crossings_unfold.
    cbn [base events].
    destruct (traced_sweep_spec c (events (base tv)) 0
                (mkTraced (mkCrossVerifier (events (base tv)) (index (base tv))
                                           (result_set (base tv)) true)
                          (trace tv)))
      as (extra & Hr & Hb & Ht & Hc).
    cbn [base trace] in Hr, Hb, Ht, Hc.
    destruct (traced_sweep c (events (base tv)) 0 _) as [r tv1].
    destruct (sweep c (events (base tv)) 0 _) as [r' v1].
    simpl in Hr, Hb, Ht, Hc. subst r' v1.
    exists extra. destruct r as [m|x]; simpl.
    + destruct c; simpl; subst; auto.
    + auto.
Qed.

(** X19: tracing only observes.  Either entry point of the traced
    verifier returns or raises exactly what it does on the plain verifier
    in the same state, and leaves the same verifier behind (index, result
    set, flag); the trace is only ever appended to. *)
Theorem tracing_does_not_interfere c tv :
  fst (traced_call c tv) = fst (call c (base tv)) /\
  base (snd (traced_call c tv)) = snd (call c (base tv)) /\
  exists extra, trace (snd (traced_call c tv)) = trace tv ++ extra.
Proof.
  destruct (traced_call_spec c tv) as (extra & Hr & Hb & Ht & _).
  split; [exact Hr|]. split; [exact Hb|]. eauto.
Qed.

(** X20: if the crossing records of the trace are the crossings of the
    result set before a call of either entry point of the traced verifier,
    they are so after it, whatever the call's outcome: each crossing
    stored is traced once, in the same order. *)
Theorem trace_records_crossings c tv :
  trace_crossings (trace tv) = crossings (result_set (base tv)) ->
  trace_crossings (trace_as_json (snd (traced_call c tv)))
  = crossings (result_set (base (snd (traced_call c tv)))).
Proof.
  intros H.
  destruct (traced_call_spec c tv) as (extra & _ & Hb & Ht & Hc).
  unfold trace_as_json. rewrite Ht, Hb, Hc, trace_crossings_app, H.
  reflexivity.
Qed.

Lemma trace_records_crossings_witness :
  trace_crossings (trace_as_json (snd (traced_call false traced_verifier4)))
  = crossings (result_set (base (snd (traced_call false traced_verifier4)))).
Proof.
  exact (@trace_records_crossings false traced_verifier4 eq_refl).
Defined.

Example traced_one_crossing :
  match TracedCrossVerifier_init [("H", wH); ("V", wV)]%string with
  | Ok tv => trace_as_json (snd (traced_wire_crossings tv))
  | Raise _ => []
  end
  = [TrAdd "H"; TrSweep 5; TrList (-5) 5 ["H"]; TrCrossing "V" "H";
     TrDelete "H"]%string.
Proof. vm_compute. reflexivity. Qed.

(* ================================================================== *)
(** ** The order of the events *)

Lemma delete_after_query V H :
  x1 V <= x2 H -> event_lt (query_event V) (delete_event H) = true.
Proof.
  intros Hx. unfold query_event, delete_event, event_lt. simpl. bool_lia.
Qed.

Lemma sorted_events_precede evs a b :
  events_sorted evs -> In a evs -> In b evs -> event_lt a b = true ->
  precedes a b evs.
Proof.
  intros Hs Ha Hb Hlt.
  destruct (in_split _ _ Hb) as (d & r & Hsplit).
  exists d, r. split; [exact Hsplit|].
  eapply sorted_precedes; eauto.
Qed.

(** X21: in the event list of a fresh verifier, for a horizontal wire H
    and a non-horizontal wire V of the layer: H is added before V's query
    when H starts at or left of V's x; V's query comes before H's deletion
    when V's x is at or left of H's end; and H is added before it is
    deleted.  So a query at x finds in the index every horizontal wire
    whose closed x range contains x. *)
Theorem events_ordered_for_closed_ranges layer v V H :
  CrossVerifier_init layer = Ok v ->
  In V (layer_values layer) -> In H (layer_values layer) ->
  is_horizontal V = false -> is_horizontal H = true ->
  x1 H <= x2 H ->
  (x1 H <= x1 V -> precedes (add_event H) (query_event V) (events v)) /\
  (x1 V <= x2 H -> precedes (query_event V) (delete_event H) (events v)) /\
  precedes (add_event H) (delete_event H) (events v).
Proof.
  intros Hi HV HH Hv Hh Hx.
  assert (Hne : layer <> []) by (intros ->; destruct HV).
  rewrite CrossVerifier_init_ok in Hi by exact Hne.
  inversion Hi; subst v; clear Hi. cbn [events].
  pose proof (sort_events_sorted
                (flat_map wire_events (layer_values layer))) as Hs.
  assert (Hq : In (query_event V)
                  (sort_events (flat_map wire_events (layer_values layer)))).
  { apply in_sorted_layer_events. exists V. split; [exact HV|].
    unfold wire_events. rewrite Hv. now left. }
  assert (Ha : In (add_event H)
                  (sort_events (flat_map wire_events (layer_values layer)))).
  { apply in_sorted_layer_events. exists H. split; [exact HH|].
    unfold wire_events. rewrite Hh. now left. }
  assert (Hd : In (delete_event H)
                  (sort_events (flat_map wire_events (layer_values layer)))).
  { apply in_sorted_layer_events. exists H. split; [exact HH|].
    unfold wire_events. rewrite Hh. right. now left. }
  split; [|split].
  - intros Hle. apply sorted_events_precede; auto.
    now apply add_before_query.
  - intros Hle. apply sorted_events_precede; auto.
    now apply delete_after_query.
  - apply sorted_events_precede; auto. now apply add_before_delete.
Qed.

Lemma events_ordered_for_closed_ranges_witness :
  (x1 wA <= x1 wB -> precedes (add_event wA) (query_event wB)
                              (sort_events (flat_map wire_events
                                                     (layer_values touch_layer)))) /\
  (x1 wB <= x2 wA -> precedes (query_event wB) (delete_event wA)
                              (sort_events (flat_map wire_events
                                                     (layer_values touch_layer)))) /\
  precedes (add_event wA) (delete_event wA)
           (sort_events (flat_map wire_events (layer_values touch_layer))).
Proof.
  apply (@events_ordered_for_closed_ranges touch_layer
           (mkCrossVerifier
              (sort_events (flat_map wire_events (layer_values touch_layer)))
              RangeIndex_init (mkResultSet []) false) wB wA).
  - reflexivity.
  - simpl. auto.
  - simpl. auto.
  - reflexivity.
  - reflexivity.
  - simpl. lia.
Defined.

(* ================================================================== *)
(** ** The index after the sweep *)

Lemma filter_perm {A} (f : A -> bool) l l' :
  Permutation l l' -> Permutation (filter f l) (filter f l').
Proof.
  induction 1 as [|x l l' _ IH|x y l|l l' l'' _ IH1 _ IH2]; simpl.
  - constructor.
  - destruct (f x); [now constructor|exact IH].
  - destruct (f x), (f y); try reflexivity. apply perm_swap.
  - now transitivity (filter f l').
Qed.

(** X22: after [count_crossings] on a fresh verifier of a well-formed,
    non-empty layer, the [data] list of the index holds the key of every
    horizontal wire of the layer, one per wire, although every one of them
    has been removed: the sweep does not empty what range queries read. *)
Theorem sweep_leaves_data layer :
  layer_wf layer -> layer <> [] ->
  exists v n v1,
    CrossVerifier_init layer = Ok v /\
    count_crossings v = (Ok (PyInt n), v1) /\
    length (data (index v1))
    = length (filter is_horizontal (layer_values layer)) /\
    forall H, In H (layer_values layer) -> is_horizontal H = true ->
              In (kwp_of H) (data (index v1)).
Proof.
  intros Hwf Hne.
  destruct (sorted_layer_events Hwf) as (Hev & Hs).
  set (evs := sort_events (flat_map wire_events (layer_values layer))) in *.
  set (v := mkCrossVerifier evs RangeIndex_init (mkResultSet []) false).
  destruct (@sweep_run true evs [] 0%nat
              (mkCrossVerifier evs RangeIndex_init (mkResultSet []) true))
    as (n' & v' & Hrun & _ & Hd & _); auto.
  { apply index_inv_init. }
  change (data (index v') = added_kwps evs) in Hd.
  exists v, n', v'. rewrite CrossVerifier_init_ok by exact Hne.
  split; [reflexivity|]. split.
  - pose proof (call_unfold true v) as Hc. unfold call in Hc. rewrite Hc.
    unfold v. cbn [performed events index result_set].
    rewrite compute_crossings_unfold.
    cbn [events]. now rewrite Hrun.
  - rewrite Hd. split.
    + assert (Hlen : forall l, length (added_kwps l)
                               = length (filter (fun e => match ev_type e with
                                                         | add => true
                                                         | _ => false
                                                         end) l)).
      { induction l as [|e l IH]; [reflexivity|].
        unfold added_kwps in *. simpl.
        destruct (ev_type e); simpl; now rewrite IH. }
      rewrite Hlen.
      unfold evs.
      rewrite (Permutation_length (filter_perm _ (sort_events_perm _))).
      clear. induction (layer_values layer) as [|w ws IH]; [reflexivity|].
      simpl. rewrite filter_app, length_app, IH. unfold wire_events.
      destruct (is_horizontal w); reflexivity.
    + intros H HH Hh. apply added_kwps_In. exists (add_event H).
      split; [|auto]. apply in_sorted_layer_events.
      exists H. split; [exact HH|]. unfold wire_events. rewrite Hh. now left.
Qed.

Lemma sweep_leaves_data_witness :
  exists v n v1,
    CrossVerifier_init layer4 = Ok v /\
    count_crossings v = (Ok (PyInt n), v1) /\
    length (data (index v1))
    = length (filter is_horizontal (layer_values layer4)) /\
    forall H, In H (layer_values layer4) -> is_horizontal H = true ->
              In (kwp_of H) (data (index v1)).
Proof.
  apply (@sweep_leaves_data layer4).
  - exact layer4_wf.
  - discriminate.
Defined.
